(** * empyrical.stats: returns-metric engine, embedded in Rocq

    A shallow embedding of [empyrical/stats.py] for one-dimensional input
    (a [pd.Series] or a 1-D [np.ndarray] of returns).  The two containers
    hold the same entries, a list of floats; where the code's result
    depends on which of the two it was given ([type(returns)([])] in
    [cum_returns]), the container is an argument of the function.

    Numbers.  A [float64] of the program is modelled in exact arithmetic:
    it is either NaN or a rational [Q].  Rounding, overflow and the two
    infinities are outside the model; comparisons with NaN are false, as
    in IEEE 754, and every arithmetic operation propagates NaN.  Rational
    results are compared with [==] ([Qeq]), lifted to [feq] on floats.

    Errors.  A Python exception is a value [Raise e] of the [result] type;
    functions that cannot raise return their value directly.

    numpy's square root and power are not rational-valued: they are
    parameters of the section that needs them.  So are the percentile and
    the partition inside the definitions of the two value-at-risk
    functions; [numpy_percentile] and [numpy_partition] are numpy's own. *)

From Stdlib Require Import QArith Qabs Qround Lqa List String Ascii Bool Lia ZArith.
Import ListNotations.
Local Open Scope string_scope.
Local Open Scope Q_scope.

(** ** Floats with NaN *)

Inductive float : Type :=
| nan : float
| fin (q : Q) : float.

Definition isnan (x : float) : bool :=
  match x with nan => true | fin _ => false end.

Definition feq (x y : float) : Prop :=
  match x, y with
  | nan, nan => True
  | fin a, fin b => a == b
  | _, _ => False
  end.

Definition Qlt_bool (a b : Q) : bool := negb (Qle_bool b a).

Definition fadd (x y : float) : float :=
  match x, y with fin a, fin b => fin (a + b) | _, _ => nan end.

Definition fsub (x y : float) : float :=
  match x, y with fin a, fin b => fin (a - b) | _, _ => nan end.

Definition fmul (x y : float) : float :=
  match x, y with fin a, fin b => fin (a * b) | _, _ => nan end.

(** numpy division.  A zero divisor gives an infinity or NaN in numpy
    (with a warning, never an exception); having no infinities, the model
    answers NaN there.  That case is not reached by the functions below:
    each of them tests its divisor first, or divides by a length or, in
    [max_drawdown], by a running maximum that is at least 1. *)
Definition fdiv (x y : float) : float :=
  match x, y with
  | fin a, fin b => if Qeq_bool b 0 then nan else fin (a / b)
  | _, _ => nan
  end.

(** [x > y], [x < y], [x == y] on floats: false as soon as one side is NaN. *)
Definition fgt (x y : float) : bool :=
  match x, y with fin a, fin b => Qlt_bool b a | _, _ => false end.

Definition flt (x y : float) : bool :=
  match x, y with fin a, fin b => Qlt_bool a b | _, _ => false end.

Definition feqb (x y : float) : bool :=
  match x, y with fin a, fin b => Qeq_bool a b | _, _ => false end.

(** ** Exceptions *)

Inductive exn : Type :=
| ValueError (msg : string)
| IndexError (msg : string)
| ZeroDivisionError.

Inductive result (A : Type) : Type :=
| Ok (a : A)
| Raise (e : exn).

Arguments Ok {A} a.
Arguments Raise {A} e.

Definition bind {A B : Type} (r : result A) (k : A -> result B) : result B :=
  match r with
  | Ok a => k a
  | Raise e => Raise e
  end.

Notation "x <- r ;; k" := (bind r (fun x => k))
  (at level 61, r at next level, right associativity).

(** ** numpy on one-dimensional arrays *)

(** [np.cumsum]: the running sum, starting from the first element. *)
Fixpoint cumsum_from (acc : float) (l : list float) : list float :=
  match l with
  | [] => []
  | x :: t => let s := fadd acc x in s :: cumsum_from s t
  end.

Definition cumsum (l : list float) : list float :=
  match l with
  | [] => []
  | x :: t => x :: cumsum_from x t
  end.

(** [.cumprod()]: the running product. *)
Fixpoint cumprod_from (acc : float) (l : list float) : list float :=
  match l with
  | [] => []
  | x :: t => let p := fmul acc x in p :: cumprod_from p t
  end.

Definition cumprod (l : list float) : list float :=
  match l with
  | [] => []
  | x :: t => x :: cumprod_from x t
  end.

(** [np.fmax]: the maximum of two floats, ignoring a NaN operand. *)
Definition fmax (x y : float) : float :=
  match x, y with
  | nan, _ => y
  | _, nan => x
  | fin a, fin b => if Qle_bool a b then fin b else fin a
  end.

(** [np.fmax.accumulate]. *)
Fixpoint fmax_accumulate_from (acc : float) (l : list float) : list float :=
  match l with
  | [] => []
  | x :: t => let m := fmax acc x in m :: fmax_accumulate_from m t
  end.

Definition fmax_accumulate (l : list float) : list float :=
  match l with
  | [] => []
  | x :: t => x :: fmax_accumulate_from x t
  end.

(** Elementwise binary operation on two arrays of the same shape. *)
Fixpoint map2 (f : float -> float -> float) (l1 l2 : list float) : list float :=
  match l1, l2 with
  | x :: t1, y :: t2 => f x y :: map2 f t1 t2
  | _, _ => []
  end.

(** Python's builtin [sum] over an array: a left fold from the integer 0. *)
Definition py_sum (l : list float) : float := fold_left fadd l (fin 0).

(** The entries that are not NaN, as rationals. *)
Fixpoint valid (l : list float) : list Q :=
  match l with
  | [] => []
  | nan :: t => valid t
  | fin q :: t => q :: valid t
  end.

Definition Qsum (l : list Q) : Q := fold_right Qplus 0 l.

Definition Qmean (l : list Q) : Q := Qsum l / inject_Z (Z.of_nat (List.length l)).

(** ** The helpers imported from [empyrical.utils] *)

(** Modelled from the spec: [nanmin] of [empyrical/utils.py], which is not
    among the sources.  It is one of the spec's NaN-aware aggregate
    functions, "ignoring undefined entries": the least entry that is not
    NaN, and NaN when there is none. *)
Definition nanmin (l : list float) : float :=
  match valid l with
  | [] => nan
  | q :: t => fin (fold_left (fun m x => if Qle_bool x m then x else m) t q)
  end.

(** Modelled from the spec: [nanmean] of [empyrical/utils.py], which is not
    among the sources.  The mean over the entries that are not NaN
    ("mean/std/percentile ignoring undefined entries"), NaN when there is
    none. *)
Definition nanmean (l : list float) : float :=
  match valid l with
  | [] => nan
  | v => fin (Qmean v)
  end.

(** ** [empyrical.periods] *)

Definition DAILY : string := "daily".
Definition WEEKLY : string := "weekly".
Definition MONTHLY : string := "monthly".
Definition YEARLY : string := "yearly".

(** Modelled from the spec: the table [ANNUALIZATION_FACTORS] of
    [empyrical/periods.py], which is not among the sources.  The spec gives
    "the fixed table {daily:252, weekly:52, monthly:12, yearly:1}"; the
    docstrings of [stats.py] list the first three entries.  A Python dict
    keeps its keys in order, hence an association list. *)
Definition ANNUALIZATION_FACTORS : list (string * Q) :=
  [(DAILY, 252); (WEEKLY, 52); (MONTHLY, 12); (YEARLY, 1)].

Fixpoint dict_get (d : list (string * Q)) (k : string) : option Q :=
  match d with
  | [] => None
  | (k', v) :: t => if String.eqb k k' then Some v else dict_get t k
  end.

Definition dict_keys (d : list (string * Q)) : list string := map fst d.

(** [sep.join(l)]. *)
Fixpoint join (sep : string) (l : list string) : string :=
  match l with
  | [] => EmptyString
  | [s] => s
  | s :: t => s ++ sep ++ join sep t
  end.

(** ** [stats.py] *)

(** The adjustment passed to [_adjust_returns]: a Python scalar or a
    series. *)
Inductive adjustment : Type :=
| Scalar (c : Q)
| Series (s : list float).

(** [returns - factor] for two arrays: numpy refuses shapes that do not
    broadcast; an array of length 1 broadcasts against any length. *)
Definition np_sub (l1 l2 : list float) : result (list float) :=
  if Nat.eqb (List.length l1) (List.length l2) then Ok (map2 fsub l1 l2)
  else match l1, l2 with
       | [x], _ => Ok (map (fun y => fsub x y) l2)
       | _, [y] => Ok (map (fun x => fsub x y) l1)
       | _, _ => Raise (ValueError "operands could not be broadcast together")
       end.

(** [_adjust_returns]: [returns] itself when the factor is the scalar 0. *)
Definition _adjust_returns (returns : list float) (adjustment_factor : adjustment)
  : result (list float) :=
  match adjustment_factor with
  | Scalar c =>
      if Qeq_bool c 0 then Ok returns
      else Ok (map (fun x => fsub x (fin c)) returns)
  | Series s => np_sub returns s
  end.

(** [annualization_factor]: the override when there is one, else the table
    entry; [KeyError] is turned into a [ValueError] that lists the keys. *)
Definition annualization_factor (period : string) (annualization : option Q)
  : result Q :=
  match annualization with
  | None =>
      match dict_get ANNUALIZATION_FACTORS period with
      | Some factor => Ok factor
      | None =>
          Raise (ValueError ("Period cannot be '" ++ period ++ "'. Can be '"
                             ++ join "', '" (dict_keys ANNUALIZATION_FACTORS)
                             ++ "'."))
      end
  | Some factor => Ok factor
  end.

(** The container of a returns argument: [type(returns)]. *)
Inductive container : Type :=
| pd_Series
| np_ndarray.

(** What [cum_returns] returns: a one-dimensional series or array with its
    entries, or numpy's zero-dimensional array.  A zero-dimensional array
    has shape [()]: it is no sequence, [len] and indexing raise on it, and
    the one float it holds is uninitialised memory when it comes from the
    constructor [np.ndarray]. *)
Inductive returned : Type :=
| OneDim (entries : list float)
| ZeroDim.

(** [type(returns)([])].  [pd.Series([])] is the empty series.
    [np.ndarray([])] reads its argument as a shape: the zero-dimensional
    array. *)
Definition type_returns_of_empty (type_returns : container) : returned :=
  match type_returns with
  | pd_Series => OneDim []
  | np_ndarray => ZeroDim
  end.

(** [cum_returns].  The compounded product [df_cum] is computed and then not
    used: what is returned is built from the running sum. *)
Definition cum_returns (type_returns : container) (returns : list float)
    (starting_value : Q) : returned :=
  if (List.length returns <? 1)%nat then type_returns_of_empty type_returns
  else
    OneDim
      (let returns :=
         if existsb isnan returns
         then map (fun x => if isnan x then fin 0 else x) returns
         else returns in
       let df_cum := cumprod (map (fun x => fadd x (fin 1)) returns) in
       let return_cum := map (fun x => fadd x (fin 1)) (cumsum returns) in
       if Qeq_bool starting_value 0
       then map (fun x => fsub x (fin 1)) return_cum
       else return_cum).

(** [cum_returns_final]: [cum_returns(np.asanyarray(returns), ...)[-1]].
    The call comes after the length test, so what it returns is
    one-dimensional and not empty ([cum_returns] keeps the length): neither
    the [ZeroDim] branch nor the default of [last] is reached. *)
Definition cum_returns_final (returns : list float) (starting_value : Q) : float :=
  if Nat.eqb (List.length returns) 0 then nan
  else match cum_returns np_ndarray returns starting_value with
       | OneDim cumulative => last cumulative nan
       | ZeroDim => nan
       end.

(** [max_drawdown].  A [pd.Series] is replaced by its [.values], so
    [cum_returns] is called on an [np.ndarray]; the call comes after the
    length test, so the [ZeroDim] branch is not reached. *)
Definition max_drawdown (returns : list float) : float :=
  if (List.length returns <? 1)%nat then nan
  else
    match cum_returns np_ndarray returns 100 with
    | OneDim cum =>
        let cumulative := fin 1 :: cum in
        let max_return := fmax_accumulate cumulative in
        nanmin (map2 fdiv (map2 fsub cumulative max_return) max_return)
    | ZeroDim => nan
    end.

(** ** Functions that need numpy's square root, power, percentile, partition *)

(** Modelled from the spec: the population and sample variance behind
    [nanstd] of [empyrical/utils.py] ("sample standard deviation
    (NaN-excluding, 1 degree of freedom correction)"): the squared deviations
    from the mean, summed and divided by [n - ddof]. *)
Definition Qvar (ddof : nat) (v : list Q) : Q :=
  Qsum (map (fun x => (x - Qmean v) * (x - Qmean v)) v)
  / inject_Z (Z.of_nat (List.length v - ddof)).

(** [int(x)] on a Python float: truncation toward zero. *)
Definition py_int (x : Q) : Z :=
  if Qle_bool 0 x then Qfloor x else Qceiling x.

(** The slice [a[:n]]; a negative [n] counts from the end. *)
Definition slice_to {A : Type} (a : list A) (n : Z) : list A :=
  if (0 <=? n)%Z then firstn (Z.to_nat n) a
  else firstn (List.length a - Z.to_nat (- n)) a.

(** [np.mean]: NaN as soon as an entry is NaN, and NaN (with a warning) for
    an empty array. *)
Definition np_mean (l : list float) : float :=
  match l with
  | [] => nan
  | _ => fdiv (fold_left fadd l (fin 0)) (fin (inject_Z (Z.of_nat (List.length l))))
  end.

(** [np.vstack] of two rows, as the list of its columns; the rows must have
    the same length. *)
Definition np_vstack (r0 r1 : list float) : result (list (float * float)) :=
  if Nat.eqb (List.length r0) (List.length r1) then Ok (combine r0 r1)
  else Raise (ValueError "all the input array dimensions except for the concatenation axis must match exactly").

(** [joint[:, ~np.isnan(joint).any(axis=0)]]: the columns without a NaN. *)
Fixpoint drop_nan_columns (joint : list (float * float)) : list (Q * Q) :=
  match joint with
  | [] => []
  | (fin x, fin y) :: t => (x, y) :: drop_nan_columns t
  | _ :: t => drop_nan_columns t
  end.

(** [np.cov(joint, ddof)] for two rows: each row is centred on its mean, and
    entry (i, j) is the dot product of rows i and j over [N - ddof]. *)
Definition np_dot (u v : list Q) : Q :=
  Qsum (map (fun p => fst p * snd p) (combine u v)).

Definition np_cov (ddof : nat) (joint : list (Q * Q)) : (Q * Q) * (Q * Q) :=
  let row0 := map fst joint in
  let row1 := map snd joint in
  let X0 := map (fun x => x - Qmean row0) row0 in
  let X1 := map (fun x => x - Qmean row1) row1 in
  let fact := inject_Z (Z.of_nat (List.length joint - ddof)) in
  ((np_dot X0 X0 / fact, np_dot X0 X1 / fact),
   (np_dot X1 X0 / fact, np_dot X1 X1 / fact)).

(** [beta_aligned]. *)
Definition beta_aligned (returns factor_returns : list float) (risk_free : Q)
  : result float :=
  if (List.length returns <? 2)%nat || (List.length factor_returns <? 2)%nat
  then Ok nan
  else
    adj <- _adjust_returns returns (Scalar risk_free) ;;
    joint <- np_vstack adj factor_returns ;;
    let joint := drop_nan_columns joint in
    if (List.length joint <? 2)%nat then Ok nan
    else
      let cov := np_cov 0 joint in
      if Qlt_bool (Qabs (snd (snd cov))) 1e-30 then Ok nan
      else Ok (fin (snd (fst cov) / snd (snd cov))).

(** The part of [omega_ratio] after the threshold is known. *)
Definition omega_split (returns : list float) (risk_free return_threshold : Q)
  : float :=
  let returns_less_thresh :=
    map (fun x => fsub (fsub x (fin risk_free)) (fin return_threshold)) returns in
  let numer := py_sum (filter (fun x => fgt x (fin 0)) returns_less_thresh) in
  let denom :=
    fmul (fin (-1)) (py_sum (filter (fun x => flt x (fin 0)) returns_less_thresh)) in
  if fgt denom (fin 0) then fdiv numer denom else nan.

Section Numpy.

(** [np.sqrt] on a rational: NaN for a negative argument. *)
Variable np_sqrt : Q -> float.

(** [x ** y] for a numpy float [x] and a Python float [y]. *)
Variable np_power : float -> Q -> float.

(** [x ** y] for Python floats with [0 < x]. *)
Variable py_pow : Q -> Q -> Q.

(** [np.percentile(a, q)] and [np.partition(a, kth)]; numpy's own are
    [numpy_percentile] and [numpy_partition], after the section. *)
Variable np_percentile : list float -> Q -> result float.
Variable np_partition : list float -> Z -> result (list float).

Definition fsqrt (x : float) : float :=
  match x with nan => nan | fin q => np_sqrt q end.

(** Modelled from the spec: [nanstd] of [empyrical/utils.py], which is not
    among the sources: the "sample standard deviation (NaN-excluding, 1
    degree of freedom correction)", NaN when no more than [ddof] entries
    are left. *)
Definition nanstd (l : list float) (ddof : nat) : float :=
  let v := valid l in
  if (List.length v <=? ddof)%nat then nan else np_sqrt (Qvar ddof v).

(** [annual_return].  [len(returns) / float(ann_factor)] is a division of
    Python scalars: it raises on a zero divisor. *)
Definition annual_return (returns : list float) (period : string)
    (annualization : option Q) : result float :=
  if (List.length returns <? 1)%nat then Ok nan
  else
    ann_factor <- annualization_factor period annualization ;;
    if Qeq_bool ann_factor 0 then Raise ZeroDivisionError
    else
      let num_years := inject_Z (Z.of_nat (List.length returns)) / ann_factor in
      let ending_value := cum_returns_final returns 1 in
      Ok (fsub (np_power ending_value (1 / num_years)) (fin 1)).

(** [omega_ratio].  [1. / annualization] is a division of Python scalars. *)
Definition omega_ratio (returns : list float)
    (risk_free required_return annualization : Q) : result float :=
  if (List.length returns <? 2)%nat then Ok nan
  else if Qeq_bool annualization 1
  then Ok (omega_split returns risk_free required_return)
  else if Qle_bool required_return (-1) then Ok nan
  else if Qeq_bool annualization 0 then Raise ZeroDivisionError
  else Ok (omega_split returns risk_free
             (py_pow (1 + required_return) (1 / annualization) - 1)).

(** [sharpe_ratio]. *)
Definition sharpe_ratio (returns : list float) (risk_free : Q)
    (period : string) (annualization : option Q) : result float :=
  if (List.length returns <? 2)%nat then Ok nan
  else
    ann_factor <- annualization_factor period annualization ;;
    adj <- _adjust_returns returns (Scalar risk_free) ;;
    let returns_risk_adj := filter (fun x => negb (isnan x)) adj in
    if feqb (nanstd returns_risk_adj 1) (fin 0) then Ok nan
    else Ok (fmul (fdiv (nanmean returns_risk_adj) (nanstd returns_risk_adj 1))
                  (np_sqrt ann_factor)).

(** [downside_risk], one-dimensional input. *)
Definition downside_risk (returns : list float) (required_return : adjustment)
    (period : string) (annualization : option Q) : result float :=
  if (List.length returns <? 1)%nat then Ok nan
  else
    ann_factor <- annualization_factor period annualization ;;
    downside_diff <- _adjust_returns returns required_return ;;
    let downside_diff :=
      map (fun x => if fgt x (fin 0) then fin 0 else x) downside_diff in
    let squares := map (fun x => fmul x x) downside_diff in
    let mean_squares := nanmean squares in
    Ok (fmul (fsqrt mean_squares) (np_sqrt ann_factor)).

(** [excess_sharpe]. *)
Definition excess_sharpe (returns : list float) (factor_returns : adjustment)
  : result float :=
  if (List.length returns <? 2)%nat then Ok nan
  else
    active_return <- _adjust_returns returns factor_returns ;;
    let tracking_error := nanstd active_return 1 in
    if isnan tracking_error then Ok (fin 0)
    else if feqb tracking_error (fin 0) then Ok nan
    else Ok (fdiv (nanmean active_return) tracking_error).

(** [value_at_risk]: no guard of its own. *)
Definition value_at_risk (returns : list float) (cutoff : Q) : result float :=
  np_percentile returns (100 * cutoff).

(** [conditional_value_at_risk]: no guard of its own. *)
Definition conditional_value_at_risk (returns : list float) (cutoff : Q)
  : result float :=
  let cutoff_index :=
    py_int (inject_Z (Z.of_nat (List.length returns) - 1) * cutoff) in
  part <- np_partition returns cutoff_index ;;
  Ok (np_mean (slice_to part (cutoff_index + 1))).

End Numpy.

(** A square root for running the model on inputs whose root is rational:
    [sqrt (n/d) = sqrt (n*d) / d], exact when [n*d] is a perfect square. *)
Definition sqrt_rational (q : Q) : float :=
  if Qlt_bool q 0 then nan
  else fin (Z.sqrt (Qnum q * Zpos (Qden q)) # Qden q).

(** ** numpy's percentile and partition *)

(** Insertion into an ascending list, and the sort made of it. *)
Fixpoint insert_sorted (x : Q) (l : list Q) : list Q :=
  match l with
  | [] => [x]
  | y :: t => if Qle_bool x y then x :: y :: t else y :: insert_sorted x t
  end.

Definition sort_values (l : list Q) : list Q := fold_right insert_sorted [] l.

(** [np.percentile(a, q)] with its default linear interpolation.  The
    percentile is validated first; then the sorted array is indexed, which
    raises on an array without entries.  An array that holds a NaN has the
    percentile NaN. *)
Definition numpy_percentile (a : list float) (q : Q) : result float :=
  if Qlt_bool q 0 || Qlt_bool 100 q
  then Raise (ValueError "Percentiles must be in the range [0, 100]")
  else
    match a with
    | [] => Raise (IndexError "index -1 is out of bounds for axis 0 with size 0")
    | _ :: _ =>
        if existsb isnan a then Ok nan
        else
          let arr := sort_values (valid a) in
          let n := List.length arr in
          let virtual_index := q / 100 * inject_Z (Z.of_nat n - 1) in
          let previous_index := Z.to_nat (Qfloor virtual_index) in
          let next_index := Nat.min (previous_index + 1) (n - 1) in
          let gamma := virtual_index - inject_Z (Qfloor virtual_index) in
          let previous := nth previous_index arr 0 in
          let next := nth next_index arr 0 in
          Ok (fin (previous + (next - previous) * gamma))
    end.

(** [np.partition(a, kth)].  The empty array is returned as it is; on
    other arrays [kth] must be an index.  numpy puts the entry of rank
    [kth] in place, the smaller ones before it and the others after it, NaN
    counting as the largest, and leaves the order inside the two sides
    open: the sorted array stands for that result.  (numpy's message also
    gives [kth] and the length.) *)
Definition numpy_partition (a : list float) (kth : Z) : result (list float) :=
  match a with
  | [] => Ok []
  | _ :: _ =>
      let n := Z.of_nat (List.length a) in
      let k := if (kth <? 0)%Z then (kth + n)%Z else kth in
      if (k <? 0)%Z || (n <=? k)%Z
      then Raise (ValueError "kth out of bounds")
      else Ok (map fin (sort_values (valid a)) ++ filter isnan a)%list
  end.

(** The compounded growth of the spec's data model ("element i equals the
    compounded product of (1 + return) over periods [0..i]"), written from
    the spec's words for comparison with [cum_returns]. *)
Definition spec_cumulative_growth (returns : list float) : list float :=
  cumprod (map (fun r => fadd (fin 1) r) returns).

(** ** Rational shadows of the array operations, for the proofs *)

(** The running sum of rationals after an accumulated [s]. *)
Fixpoint Qrun (s : Q) (qs : list Q) : list Q :=
  match qs with
  | [] => []
  | q :: t => (s + q) :: Qrun (s + q) t
  end.

(** [m <= c1 <= c2 <= ...]. *)
Fixpoint nondecreasing_from (m : Q) (cs : list Q) : Prop :=
  match cs with
  | [] => True
  | c :: t => m <= c /\ nondecreasing_from c t
  end.

(** The fold behind [nanmin]. *)
Definition Qmin_fold (l : list Q) (q : Q) : Q :=
  fold_left (fun m x => if Qle_bool x m then x else m) l q.

(** ** Perturbing the positive entries of a series *)

(** [perturb_positive r r']: [r'] is [r] with some strictly positive entries
    replaced by other strictly positive values. *)
Inductive perturb_positive : list float -> list float -> Prop :=
| perturb_nil : perturb_positive [] []
| perturb_keep (x : float) (l l' : list float) :
    perturb_positive l l' -> perturb_positive (x :: l) (x :: l')
| perturb_move (a b : Q) (l l' : list float) :
    0 < a -> 0 < b ->
    perturb_positive l l' -> perturb_positive (fin a :: l) (fin b :: l').

(** The square that a return contributes to the downside mean: nothing
    above zero, its own square otherwise. *)
Definition downside_square (q : Q) : Q :=
  if Qlt_bool 0 q then 0 * 0 else q * q.

(** ** The Omega ratio in the spec's words *)

(** The returns that are numbers, less the risk-free rate and the
    threshold. *)
Definition adjusted_returns (returns : list float) (risk_free threshold : Q)
  : list Q :=
  map (fun x => x - risk_free - threshold) (valid returns).

(** "sum(gains above threshold)" and "sum(losses below threshold)". *)
Definition gains_above (adjusted : list Q) : Q :=
  Qsum (filter (fun x => Qlt_bool 0 x) adjusted).

Definition losses_below (adjusted : list Q) : Q :=
  Qsum (filter (fun x => Qlt_bool x 0) adjusted).

(** ** Beta in the spec's words *)

(** The joint-valid observations: the pairs (risk-free-adjusted return,
    factor return) at the indices where both series hold a number. *)
Fixpoint joint_valid (returns factor_returns : list float) (risk_free : Q)
  : list (Q * Q) :=
  match returns, factor_returns with
  | fin x :: t, fin y :: u => (x - risk_free, y) :: joint_valid t u risk_free
  | _ :: t, _ :: u => joint_valid t u risk_free
  | _, _ => []
  end.

(** Population covariance and variance: mean products of the deviations
    from the means, over all [n] observations. *)
Definition population_cov (obs : list (Q * Q)) : Q :=
  Qmean (map (fun p => (fst p - Qmean (map fst obs))
                       * (snd p - Qmean (map snd obs))) obs).

Definition population_var (ys : list Q) : Q :=
  Qmean (map (fun y => (y - Qmean ys) * (y - Qmean ys)) ys).

(** Two observation lists that agree up to [==] on the strategy side. *)
Definition obs_eq (p q : Q * Q) : Prop := fst p == fst q /\ snd p = snd q.

(** ** Rational shadows of the cumulative transform and the drawdown *)

(** The series after [returns[np.isnan(returns)] = 0.]. *)
Definition zero_fill (returns : list float) : list float :=
  map (fun x => if isnan x then fin 0 else x) returns.

(** Its entries as rationals. *)
Definition filled_values (returns : list float) : list Q :=
  map (fun x => match x with nan => 0 | fin q => q end) returns.

(** The entries of what [cum_returns] returns on a non-empty array; the
    empty list on the empty array. *)
Definition cum_returns_entries (returns : list float) (starting_value : Q)
  : list float :=
  match cum_returns np_ndarray returns starting_value with
  | OneDim cumulative => cumulative
  | ZeroDim => []
  end.

(** The levels [1 + running sum] that [cum_returns] returns for a non-zero
    starting value. *)
Definition Qlevels (qs : list Q) : list Q :=
  match qs with
  | [] => []
  | q :: t => (q + 1) :: map (fun s => s + 1) (Qrun q t)
  end.

(** The drawdowns [(c - m') / m'] of the levels [cs] against the running
    maximum, which is [m] before the first of them. *)
Fixpoint Qdrawdowns (m : Q) (cs : list Q) : list Q :=
  match cs with
  | [] => []
  | c :: t =>
      let m' := if Qle_bool m c then c else m in
      ((c - m') / m') :: Qdrawdowns m' t
  end.

(** ** More of [stats.py]: alpha *)

(** [alpha_aligned].  [_beta] is [None] or a precomputed beta;
    [_beta * adj_factor_returns] scales every factor return. *)
Definition alpha_aligned (returns factor_returns : list float) (risk_free : Q)
    (period : string) (annualization : option Q) (_beta : option float)
  : result float :=
  if (List.length returns <? 2)%nat then Ok nan
  else
    ann_factor <- annualization_factor period annualization ;;
    _beta <- match _beta with
             | None => beta_aligned returns factor_returns risk_free
             | Some b => Ok b
             end ;;
    adj_returns <- _adjust_returns returns (Scalar risk_free) ;;
    adj_factor_returns <- _adjust_returns factor_returns (Scalar risk_free) ;;
    alpha_series <-
      np_sub adj_returns (map (fun y => fmul _beta y) adj_factor_returns) ;;
    Ok (fmul (nanmean alpha_series) (fin ann_factor)).

(** [alpha_beta_aligned]: beta first, then alpha with that beta. *)
Definition alpha_beta_aligned (returns factor_returns : list float)
    (risk_free : Q) (period : string) (annualization : option Q)
  : result (float * float) :=
  b <- beta_aligned returns factor_returns risk_free ;;
  a <- alpha_aligned returns factor_returns risk_free period annualization
         (Some b) ;;
  Ok (a, b).

(** The joint-valid pairs before the risk-free adjustment. *)
Fixpoint joint_pairs (returns factor_returns : list float) : list (Q * Q) :=
  match returns, factor_returns with
  | fin x :: t, fin y :: u => (x, y) :: joint_pairs t u
  | _ :: t, _ :: u => joint_pairs t u
  | _, _ => []
  end.

(** ** [aggregate_returns] on a date-indexed series *)

(** What the grouping functions read off an index entry (a
    [pd.Timestamp]): [x.year], [x.month] and [x.isocalendar()[1]]. *)
Record timestamp : Type := {
  year : Z;
  month : Z;
  isoweek : Z
}.

(** A group key: the tuple of the grouping functions' values. *)
Definition key : Type := list Z.

(** Tuples are ordered lexicographically. *)
Fixpoint key_compare (a b : key) : comparison :=
  match a, b with
  | [], [] => Eq
  | [], _ :: _ => Lt
  | _ :: _, [] => Gt
  | x :: t, y :: u =>
      match Z.compare x y with
      | Eq => key_compare t u
      | c => c
      end
  end.

(** One row joins the group of its key; the groups are kept in increasing
    key order, and a group keeps its rows in the order of the series. *)
Fixpoint group_insert (k : key) (v : float) (groups : list (key * list float))
  : list (key * list float) :=
  match groups with
  | [] => [(k, [v])]
  | (k', vs) :: t =>
      match key_compare k k' with
      | Eq => (k', (vs ++ [v])%list) :: t
      | Lt => (k, [v]) :: (k', vs) :: t
      | Gt => (k', vs) :: group_insert k v t
      end
  end.

(** [series.groupby(grouping)], with pandas' default [sort=True]. *)
Definition groupby (grouping : list (timestamp -> Z))
    (series : list (timestamp * float)) : list (key * list float) :=
  fold_left
    (fun groups row =>
       group_insert (map (fun g => g (fst row)) grouping) (snd row) groups)
    series [].

(** The local [cumulate_returns]: [cum_returns(x).iloc[-1]], on a group,
    which is a [pd.Series] and never empty. *)
Definition cumulate_returns (x : list float) : float :=
  match cum_returns pd_Series x 0 with
  | OneDim cumulative => last cumulative nan
  | ZeroDim => nan
  end.

(** [aggregate_returns]. *)
Definition aggregate_returns (returns : list (timestamp * float))
    (convert_to : string) : result (list (key * float)) :=
  let apply grouping :=
    Ok (map (fun g => (fst g, cumulate_returns (snd g)))
            (groupby grouping returns)) in
  if String.eqb convert_to WEEKLY then apply [year; isoweek]
  else if String.eqb convert_to MONTHLY then apply [year; month]
  else if String.eqb convert_to YEARLY then apply [year]
  else Raise (ValueError ("convert_to must be " ++ WEEKLY ++ ", " ++ MONTHLY
                          ++ " or " ++ YEARLY)).

(** The grouping functions of a valid label. *)
Definition grouping_of (convert_to : string) : list (timestamp -> Z) :=
  if String.eqb convert_to WEEKLY then [year; isoweek]
  else if String.eqb convert_to MONTHLY then [year; month]
  else [year].

Definition key_lt (a b : key) : Prop := key_compare a b = Lt.

(** Strictly increasing keys. *)
Fixpoint keys_increasing (ks : list key) : Prop :=
  match ks with
  | [] => True
  | k :: t =>
      match t with
      | [] => True
      | k' :: _ => key_lt k k' /\ keys_increasing t
      end
  end.

(** The total of the numbers held by all the groups. *)
Definition group_total (groups : list (key * list float)) : Q :=
  Qsum (map (fun g => Qsum (valid (snd g))) groups).

(** * Properties *)

(** ** Floats and lists *)

Lemma feq_refl (x : float) : feq x x.
Proof. destruct x; simpl; [exact I | reflexivity]. Qed.

Lemma feq_sym (x y : float) : feq x y -> feq y x.
Proof. destruct x, y; simpl; auto. intros H; symmetry; exact H. Qed.

Lemma feq_trans (x y z : float) : feq x y -> feq y z -> feq x z.
Proof.
  destruct x, y, z; simpl; auto; try contradiction.
  intros H1 H2; rewrite H1; exact H2.
Qed.

Lemma Qlt_bool_iff (a b : Q) : Qlt_bool a b = true <-> a < b.
Proof.
  unfold Qlt_bool. rewrite negb_true_iff.
  split; intros H.
  - apply Qnot_le_lt. intros Hle. apply Qle_bool_iff in Hle. congruence.
  - destruct (Qle_bool b a) eqn:E; [|reflexivity].
    apply Qle_bool_iff in E. lra.
Qed.

Lemma Qlt_bool_false_iff (a b : Q) : Qlt_bool a b = false <-> b <= a.
Proof.
  unfold Qlt_bool. rewrite negb_false_iff. apply Qle_bool_iff.
Qed.

Lemma Qeq_bool_false_iff (a b : Q) : Qeq_bool a b = false <-> ~ a == b.
Proof.
  split.
  - apply Qeq_bool_neq.
  - intros H. destruct (Qeq_bool a b) eqn:E; [|reflexivity].
    apply Qeq_bool_eq in E. contradiction.
Qed.

Lemma last_default {A : Type} (l : list A) (d d' : A) :
  l <> [] -> last l d = last l d'.
Proof.
  induction l as [|x t IH]; [congruence|].
  intros _. destruct t as [|y t]; [reflexivity|].
  change (last (y :: t) d = last (y :: t) d'). apply IH. discriminate.
Qed.

Lemma last_map {A B : Type} (f : A -> B) (l : list A) (d : A) :
  last (map f l) (f d) = f (last l d).
Proof.
  induction l as [|x t IH]; [reflexivity|].
  destruct t as [|y t]; [reflexivity|].
  change (last (map f (y :: t)) (f d) = f (last (y :: t) d)). exact IH.
Qed.

Lemma last_map_nan (f : float -> float) (l : list float) :
  f nan = nan -> last (map f l) nan = f (last l nan).
Proof. intros H. rewrite <- H at 1. apply last_map. Qed.

Lemma inject_Z_succ (n : nat) :
  inject_Z (Z.of_nat (S n)) == inject_Z (Z.of_nat n) + 1.
Proof.
  rewrite Nat2Z.inj_succ. unfold Z.succ. rewrite inject_Z_plus. reflexivity.
Qed.

(** ** The cumulative transform *)

Lemma cumsum_from_length (acc : float) (l : list float) :
  List.length (cumsum_from acc l) = List.length l.
Proof.
  revert acc. induction l as [|x t IH]; intros acc; simpl; [reflexivity|].
  now rewrite IH.
Qed.

Lemma cumsum_length (l : list float) : List.length (cumsum l) = List.length l.
Proof.
  destruct l as [|x t]; simpl; [reflexivity|]. now rewrite cumsum_from_length.
Qed.

(** After its length test [cum_returns] returns a one-dimensional array,
    whatever the container. *)
Lemma cum_returns_nonempty (type_returns : container) (x : float)
    (t : list float) (starting_value : Q) :
  cum_returns type_returns (x :: t) starting_value
  = OneDim (cum_returns_entries (x :: t) starting_value).
Proof. reflexivity. Qed.

Lemma cum_returns_final_entries (returns : list float) (starting_value : Q) :
  cum_returns_final returns starting_value
  = if Nat.eqb (List.length returns) 0 then nan
    else last (cum_returns_entries returns starting_value) nan.
Proof.
  unfold cum_returns_final, cum_returns_entries.
  destruct (cum_returns np_ndarray returns starting_value); reflexivity.
Qed.

Lemma cum_returns_length (returns : list float) (starting_value : Q) :
  List.length (cum_returns_entries returns starting_value) = List.length returns.
Proof.
  unfold cum_returns_entries, cum_returns.
  destruct returns as [|x t]; [reflexivity|].
  cbv beta zeta. change (List.length (x :: t) <? 1)%nat with false. cbv iota.
  destruct (existsb isnan (x :: t)), (Qeq_bool starting_value 0);
    rewrite ?length_map, cumsum_length, ?length_map; reflexivity.
Qed.

Lemma existsb_isnan_repeat (c : Q) (n : nat) :
  existsb isnan (repeat (fin c) n) = false.
Proof. induction n; simpl; auto. Qed.

Lemma cumsum_from_repeat_last (n : nat) (s c : Q) :
  exists q,
    last (cumsum_from (fin s) (repeat (fin c) n)) (fin s) = fin q
    /\ q == s + inject_Z (Z.of_nat n) * c.
Proof.
  revert s. induction n as [|n IH]; intros s.
  - exists s. split; [reflexivity|].
    change (inject_Z (Z.of_nat 0)) with 0. lra.
  - destruct (IH (s + c)) as [q [Hl Hq]].
    exists q. split.
    + simpl repeat. simpl cumsum_from.
      destruct (cumsum_from (fin (s + c)) (repeat (fin c) n)) as [|y t] eqn:E.
      * simpl in *. exact Hl.
      * change (last (y :: t) (fin s) = fin q).
        rewrite <- Hl. apply last_default. discriminate.
    + rewrite Hq, inject_Z_succ. lra.
Qed.

(** On a constant series the code returns the sum [n * c] of the returns. *)
Lemma cum_returns_final_repeat (c : Q) (n : nat) :
  feq (cum_returns_final (repeat (fin c) (S n)) 0)
      (fin (inject_Z (Z.of_nat (S n)) * c)).
Proof.
  unfold cum_returns_final, cum_returns.
  change (List.length (repeat (fin c) (S n)) =? 0)%nat with false.
  change (List.length (repeat (fin c) (S n)) <? 1)%nat with false.
  cbv iota beta zeta.
  rewrite existsb_isnan_repeat.
  change (Qeq_bool 0 0) with true. cbv iota.
  rewrite map_map.
  rewrite (last_map_nan (fun x => fsub (fadd x (fin 1)) (fin 1)))
    by reflexivity.
  simpl repeat. simpl cumsum.
  destruct (cumsum_from_repeat_last n c c) as [q [Hl Hq]].
  assert (E : last (fin c :: cumsum_from (fin c) (repeat (fin c) n)) nan = fin q).
  { destruct (cumsum_from (fin c) (repeat (fin c) n)) as [|y t] eqn:E.
    - simpl in *. exact Hl.
    - rewrite <- Hl. change (last (y :: t) nan = last (y :: t) (fin c)).
      apply last_default. discriminate. }
  rewrite E. cbn [fsub fadd feq]. rewrite Hq, inject_Z_succ. lra.
Qed.

(** C1 (the code departs from the claim).  On the constant series
    [0.1, 0.1] the claim gives the compounded total [(1 + 0.1)^2 - 1 = 0.21];
    [cum_returns_final] returns [0.2], the plain sum of the returns, and so
    it does on every constant series: [n * c]. *)
Theorem cum_returns_final_constant_sums :
  (forall c n, feq (cum_returns_final (repeat (fin c) (S n)) 0)
                   (fin (inject_Z (Z.of_nat (S n)) * c)))
  /\ feq (cum_returns_final [fin 0.1; fin 0.1] 0) (fin 0.2)
  /\ ~ feq (cum_returns_final [fin 0.1; fin 0.1] 0) (fin ((1 + 0.1) ^ 2 - 1))
  /\ (forall type_returns, exists cumulative,
        cum_returns type_returns [fin 0.1; fin 0.1] 0 = OneDim cumulative
        /\ ~ Forall2 feq cumulative
               (map (fun g => fsub g (fin 1))
                    (spec_cumulative_growth [fin 0.1; fin 0.1]))).
Proof.
  split; [exact cum_returns_final_repeat|].
  split; [vm_compute; reflexivity|].
  split.
  - vm_compute. discriminate.
  - intros type_returns. eexists. split; [apply cum_returns_nonempty|].
    intros H. inversion H as [|x y l l' _ H2]; subst.
    inversion H2 as [|x' y' l2 l2' H3 _]; subst.
    vm_compute in H3. discriminate.
Qed.

(** C2 (the code departs from the claim).  With [starting_value = 100] the
    claim gives the level [growth * 100], that is [110, 121] on the returns
    [0.1, 0.1]; [cum_returns] returns [1.1, 1.2]: one plus the running sum,
    not multiplied by the starting value, so 100 and 1 give the same
    result on every series.  With [starting_value = 0] it returns
    [0.1, 0.2], not [growth - 1 = 0.1, 0.21]. *)
Theorem cum_returns_ignores_starting_value :
  (forall type_returns returns,
     cum_returns type_returns returns 100 = cum_returns type_returns returns 1)
  /\ (forall type_returns, exists cumulative,
        cum_returns type_returns [fin 0.1; fin 0.1] 100 = OneDim cumulative
        /\ Forall2 feq cumulative [fin 1.1; fin 1.2]
        /\ ~ Forall2 feq cumulative
               (map (fun g => fmul g (fin 100))
                    (spec_cumulative_growth [fin 0.1; fin 0.1])))
  /\ Forall2 feq (map (fun g => fmul g (fin 100))
                      (spec_cumulative_growth [fin 0.1; fin 0.1]))
             [fin 110; fin 121]
  /\ (forall type_returns, exists cumulative,
        cum_returns type_returns [fin 0.1; fin 0.1] 0 = OneDim cumulative
        /\ Forall2 feq cumulative [fin 0.1; fin 0.2])
  /\ Forall2 feq (map (fun g => fsub g (fin 1))
                      (spec_cumulative_growth [fin 0.1; fin 0.1]))
             [fin 0.1; fin 0.21].
Proof.
  split; [intros type_returns returns; reflexivity|].
  split.
  { intros type_returns. eexists. split; [apply cum_returns_nonempty|]. split.
    - repeat constructor; vm_compute; reflexivity.
    - intros H. inversion H as [|x y l l' H1 _]; subst.
      vm_compute in H1. discriminate. }
  split; [repeat constructor; vm_compute; reflexivity|].
  split.
  { intros type_returns. eexists. split; [apply cum_returns_nonempty|].
    repeat constructor; vm_compute; reflexivity. }
  repeat constructor; vm_compute; reflexivity.
Qed.

(** C10 (the code departs from the claim).  On the empty [np.ndarray] the
    claim gives the empty sequence; [cum_returns] returns
    [type(returns)([])], for an [np.ndarray] the zero-dimensional array,
    which has no length.  On the empty [pd.Series] it does return the empty
    series.  The rest of the claim holds for both containers: on a
    non-empty input the result is one-dimensional, as long as the input,
    and its last element is what [cum_returns_final] returns; on the empty
    input [cum_returns_final] is NaN. *)
Theorem cum_returns_empty_ndarray_is_zero_dim :
  (forall starting_value,
     cum_returns np_ndarray [] starting_value = ZeroDim
     /\ cum_returns np_ndarray [] starting_value <> OneDim [])
  /\ (forall starting_value, cum_returns pd_Series [] starting_value = OneDim [])
  /\ (forall starting_value, cum_returns_final [] starting_value = nan)
  /\ (forall type_returns x t,
        exists front y,
          cum_returns type_returns (x :: t) 0 = OneDim (front ++ [y])
          /\ List.length (front ++ [y]) = List.length (x :: t)
          /\ cum_returns_final (x :: t) 0 = y).
Proof.
  split; [intros sv; split; [reflexivity|discriminate]|].
  split; [reflexivity|]. split; [reflexivity|].
  intros type_returns x t.
  assert (Hc : cum_returns_entries (x :: t) 0 <> []).
  { intros E. apply (f_equal (@List.length float)) in E.
    rewrite cum_returns_length in E. discriminate. }
  exists (removelast (cum_returns_entries (x :: t) 0)),
         (last (cum_returns_entries (x :: t) 0) nan).
  rewrite <- (app_removelast_last nan Hc).
  split; [apply cum_returns_nonempty|].
  split; [apply cum_returns_length|].
  rewrite cum_returns_final_entries. reflexivity.
Qed.

(** ** The annualization registry *)

(** C8.  An override is returned unchanged whatever the label; without one
    the four labels give 252, 52, 12 and 1, and any other label raises a
    [ValueError] whose message lists the allowed labels. *)
Theorem annualization_factor_override_table_error :
  (forall period a, annualization_factor period (Some a) = Ok a)
  /\ (annualization_factor "daily" None = Ok 252
      /\ annualization_factor "weekly" None = Ok 52
      /\ annualization_factor "monthly" None = Ok 12
      /\ annualization_factor "yearly" None = Ok 1)
  /\ (forall period,
        ~ In period ["daily"; "weekly"; "monthly"; "yearly"] ->
        annualization_factor period None
        = Raise (ValueError
                   ("Period cannot be '" ++ period
                    ++ "'. Can be 'daily', 'weekly', 'monthly', 'yearly'."))).
Proof.
  split; [reflexivity|]. split; [repeat split|].
  intros period Hnot. unfold annualization_factor.
  assert (Hget : dict_get ANNUALIZATION_FACTORS period = None).
  { unfold ANNUALIZATION_FACTORS, DAILY, WEEKLY, MONTHLY, YEARLY. simpl.
    repeat match goal with
           | |- context [String.eqb period ?k] =>
               destruct (String.eqb_spec period k) as [E|_];
               [exfalso; apply Hnot; rewrite E; simpl; tauto|]
           end.
    reflexivity. }
  rewrite Hget. reflexivity.
Qed.

Lemma annualization_factor_override_table_error_witness :
  annualization_factor "hourly" None
  = Raise (ValueError
             "Period cannot be 'hourly'. Can be 'daily', 'weekly', 'monthly', 'yearly'.").
Proof.
  apply (proj2 (proj2 annualization_factor_override_table_error) "hourly").
  simpl. intros [H|[H|[H|[H|[]]]]]; discriminate H.
Defined.

(** ** Drawdown *)

Lemma valid_map_fin (l : list Q) : valid (map fin l) = l.
Proof. induction l as [|q t IH]; simpl; [reflexivity|]. now rewrite IH. Qed.

Lemma Qmin_fold_le (l : list Q) (q : Q) : Qmin_fold l q <= q.
Proof.
  unfold Qmin_fold. revert q. induction l as [|x t IH]; intros q; simpl.
  - lra.
  - destruct (Qle_bool x q) eqn:E.
    + apply Qle_bool_iff in E. specialize (IH x). lra.
    + apply IH.
Qed.

Lemma Qmin_fold_ge (l : list Q) (q b : Q) :
  b <= q -> Forall (fun x => b <= x) l -> b <= Qmin_fold l q.
Proof.
  unfold Qmin_fold. revert q. induction l as [|x t IH]; intros q Hq Hl; simpl.
  - exact Hq.
  - inversion Hl as [|x' t' Hx Ht]; subst.
    destruct (Qle_bool x q); apply IH; assumption.
Qed.

Lemma cumsum_from_fin (s : Q) (qs : list Q) :
  cumsum_from (fin s) (map fin qs) = map fin (Qrun s qs).
Proof.
  revert s. induction qs as [|q t IH]; intros s; simpl; [reflexivity|].
  now rewrite IH.
Qed.

Lemma Qrun_nondecreasing (qs : list Q) (s : Q) :
  Forall (fun q => 0 <= q) qs ->
  nondecreasing_from (s + 1) (map (fun x => x + 1) (Qrun s qs)).
Proof.
  revert s. induction qs as [|q t IH]; intros s H; simpl; [exact I|].
  inversion H as [|q' t' Hq Ht]; subst. split; [lra|]. apply IH. exact Ht.
Qed.

Lemma Qdiv_self_sub (c : Q) : 1 <= c -> (c - c) / c == 0.
Proof. intros H. field. lra. Qed.

(** Along a non-decreasing level sequence the running maximum is the level
    itself, and every drawdown entry is zero. *)
Lemma drawdown_nondecreasing (cs : list Q) (m : Q) :
  1 <= m -> nondecreasing_from m cs ->
  Forall (fun d => 0 <= d)
    (valid (map2 fdiv
              (map2 fsub (map fin cs) (fmax_accumulate_from (fin m) (map fin cs)))
              (fmax_accumulate_from (fin m) (map fin cs)))).
Proof.
  revert m. induction cs as [|c t IH]; intros m Hm Hnd; simpl; [constructor|].
  destruct Hnd as [Hmc Hnd].
  assert (E : Qle_bool m c = true) by (apply Qle_bool_iff; exact Hmc).
  rewrite E. cbn [fsub fdiv].
  assert (Z : Qeq_bool c 0 = false) by (apply Qeq_bool_false_iff; lra).
  rewrite Z. cbn [valid]. constructor.
  - rewrite Qdiv_self_sub; lra.
  - apply IH; [lra | exact Hnd].
Qed.

Lemma nonneg_as_rationals (returns : list float) :
  Forall (fun x => exists q, x = fin q /\ 0 <= q) returns ->
  exists qs, returns = map fin qs /\ Forall (fun q => 0 <= q) qs.
Proof.
  induction 1 as [|x t [q [Hx Hq]] _ [qs [Ht Hqs]]].
  - exists []. split; [reflexivity | constructor].
  - exists (q :: qs). subst. split; [reflexivity | constructor; assumption].
Qed.

Lemma existsb_isnan_fin (qs : list Q) : existsb isnan (map fin qs) = false.
Proof. induction qs; simpl; auto. Qed.

(** The head of the drawdown sequence is the origin against itself. *)
Lemma max_drawdown_unfold (x : float) (t : list float) :
  max_drawdown (x :: t)
  = fin (Qmin_fold
           (valid (map2 fdiv
                     (map2 fsub (cum_returns_entries (x :: t) 100)
                        (fmax_accumulate_from (fin 1)
                           (cum_returns_entries (x :: t) 100)))
                     (fmax_accumulate_from (fin 1)
                        (cum_returns_entries (x :: t) 100))))
           ((1 - 1) / 1)).
Proof. reflexivity. Qed.

(** C4.  On a non-empty series [max_drawdown] is a number [<= 0]; it is 0
    when every return is a number [>= 0]; on the empty series it is NaN. *)
Theorem max_drawdown_nonpositive :
  forall returns : list float,
    (returns <> [] -> exists d, max_drawdown returns = fin d /\ d <= 0)
    /\ (returns <> [] ->
        Forall (fun x => exists q, x = fin q /\ 0 <= q) returns ->
        exists d, max_drawdown returns = fin d /\ d == 0)
    /\ max_drawdown [] = nan.
Proof.
  intros returns. split; [|split; [|reflexivity]].
  - intros Hne. destruct returns as [|x t]; [congruence|].
    rewrite max_drawdown_unfold. eexists. split; [reflexivity|].
    eapply Qle_trans; [apply Qmin_fold_le|]. apply Qle_lteq. right. field.
  - intros Hne Hpos. destruct returns as [|x t]; [congruence|].
    rewrite max_drawdown_unfold. eexists. split; [reflexivity|].
    apply Qle_antisym.
    + eapply Qle_trans; [apply Qmin_fold_le|]. apply Qle_lteq. right. field.
    + apply Qmin_fold_ge; [apply Qle_lteq; right; field|].
      destruct (nonneg_as_rationals _ Hpos) as [qs [E Hqs]].
      destruct qs as [|q qs]; [discriminate E|].
      rewrite E. unfold cum_returns_entries, cum_returns.
      change (List.length (map fin (q :: qs)) <? 1)%nat with false.
      cbv iota beta zeta. rewrite existsb_isnan_fin.
      change (Qeq_bool 100 0) with false. cbv iota.
      simpl map at 2. simpl cumsum. rewrite cumsum_from_fin.
      inversion Hqs as [|q' qs' Hq Hqs']; subst.
      change (map (fun x0 => fadd x0 (fin 1)) (fin q :: map fin (Qrun q qs)))
        with (fin (q + 1) :: map (fun x0 => fadd x0 (fin 1)) (map fin (Qrun q qs))).
      rewrite map_map.
      change (map (fun x0 => fadd (fin x0) (fin 1)) (Qrun q qs))
        with (map (fun x0 => fin (x0 + 1)) (Qrun q qs)).
      rewrite <- (map_map (fun x0 => x0 + 1) fin).
      change (fin (q + 1) :: map fin (map (fun x0 => x0 + 1) (Qrun q qs)))
        with (map fin ((q + 1) :: map (fun x0 => x0 + 1) (Qrun q qs))).
      apply drawdown_nondecreasing; [lra|].
      simpl. split; [lra|]. apply Qrun_nondecreasing. exact Hqs'.
Qed.

Lemma max_drawdown_nonpositive_witness :
  (exists d, max_drawdown [fin 0.01; fin (-0.02); fin 0.015] = fin d /\ d <= 0)
  /\ (exists d, max_drawdown [fin 0.01; fin 0; fin 0.02] = fin d /\ d == 0).
Proof.
  split.
  - apply (proj1 (max_drawdown_nonpositive [fin 0.01; fin (-0.02); fin 0.015])).
    discriminate.
  - apply (proj1 (proj2 (max_drawdown_nonpositive [fin 0.01; fin 0; fin 0.02]))).
    + discriminate.
    + repeat constructor; eexists; (split; [reflexivity|]);
        apply Qle_bool_iff; reflexivity.
Defined.

(** ** Downside risk *)

Lemma perturb_positive_length (r r' : list float) :
  perturb_positive r r' -> List.length r = List.length r'.
Proof. induction 1; simpl; congruence. Qed.

Lemma perturb_positive_mask (r r' : list float) :
  perturb_positive r r' ->
  map (fun x => if fgt x (fin 0) then fin 0 else x) r
  = map (fun x => if fgt x (fin 0) then fin 0 else x) r'.
Proof.
  induction 1 as [|x l l' _ IH|a b l l' Ha Hb _ IH]; simpl.
  - reflexivity.
  - now rewrite IH.
  - apply Qlt_bool_iff in Ha, Hb. rewrite Ha, Hb, IH. reflexivity.
Qed.

Lemma adjust_returns_zero (returns : list float) :
  _adjust_returns returns (Scalar 0) = Ok returns.
Proof. reflexivity. Qed.

Lemma downside_squares_fin (qs : list Q) :
  map (fun x => fmul x x)
      (map (fun x => if fgt x (fin 0) then fin 0 else x) (map fin qs))
  = map fin (map downside_square qs).
Proof.
  induction qs as [|q t IH]; simpl; [reflexivity|].
  rewrite IH. unfold downside_square. destruct (Qlt_bool 0 q); reflexivity.
Qed.

(** C9.  With [required_return = 0], replacing strictly positive entries by
    other strictly positive values leaves [downside_risk] unchanged; on a
    series without NaN the result is the root of the downside squares
    averaged over all the periods, times the root of the annualization
    factor. *)
Theorem downside_risk_positive_invariant :
  forall (np_sqrt : Q -> float) (returns returns' : list float)
         (period : string) (annualization : option Q),
    returns <> [] ->
    perturb_positive returns returns' ->
    downside_risk np_sqrt returns (Scalar 0) period annualization
    = downside_risk np_sqrt returns' (Scalar 0) period annualization
    /\ (forall qs ann_factor,
          returns = map fin qs ->
          annualization_factor period annualization = Ok ann_factor ->
          downside_risk np_sqrt returns (Scalar 0) period annualization
          = Ok (fmul (np_sqrt (Qsum (map downside_square qs)
                               / inject_Z (Z.of_nat (List.length qs))))
                     (np_sqrt ann_factor))).
Proof.
  intros np_sqrt r r' period annualization Hne Hp. split.
  - unfold downside_risk.
    rewrite <- (perturb_positive_length _ _ Hp).
    destruct (List.length r <? 1)%nat; [reflexivity|].
    destruct (annualization_factor period annualization) as [f|e]; [|reflexivity].
    unfold bind. rewrite !adjust_returns_zero.
    rewrite (perturb_positive_mask _ _ Hp). reflexivity.
  - intros qs f E Hf. subst r. unfold downside_risk.
    destruct qs as [|q t]; [exfalso; apply Hne; reflexivity|].
    change (List.length (map fin (q :: t)) <? 1)%nat with false. cbv iota.
    rewrite Hf. unfold bind. rewrite adjust_returns_zero.
    rewrite downside_squares_fin. unfold nanmean. rewrite valid_map_fin.
    cbn [map]. cbn [fsqrt]. unfold Qmean.
    cbn [List.length]. rewrite length_map. reflexivity.
Qed.

Lemma downside_risk_positive_invariant_witness :
  downside_risk sqrt_rational [fin 0.03; fin (-0.02); fin 0.01] (Scalar 0) "daily" None
  = downside_risk sqrt_rational [fin 0.5; fin (-0.02); fin 0.01] (Scalar 0) "daily" None.
Proof.
  apply (downside_risk_positive_invariant sqrt_rational
           [fin 0.03; fin (-0.02); fin 0.01] [fin 0.5; fin (-0.02); fin 0.01]).
  - discriminate.
  - apply perturb_move; [reflexivity | reflexivity |].
    apply perturb_keep, perturb_keep, perturb_nil.
Defined.

(** ** Excess Sharpe *)

Lemma np_sub_same_length (l1 l2 : list float) :
  List.length l2 = List.length l1 -> np_sub l1 l2 = Ok (map2 fsub l1 l2).
Proof.
  intros H. unfold np_sub. rewrite H, Nat.eqb_refl. reflexivity.
Qed.

Lemma nanstd_fin_valid (np_sqrt : Q -> float) (l : list float) (s : Q) :
  nanstd np_sqrt l 1 = fin s -> exists q t, valid l = q :: t.
Proof.
  unfold nanstd. destruct (valid l) as [|q t]; simpl.
  - discriminate.
  - intros _. now exists q, t.
Qed.

(** C7.  For two series of the same length, at least 2: [excess_sharpe] is
    0.0 when the tracking error (the sample standard deviation of the
    active return) is NaN, which it is when fewer than two active returns
    are numbers; it is NaN when the tracking error is 0; otherwise it is
    the mean of the active return over the tracking error. *)
Theorem excess_sharpe_tracking_error_cases :
  forall (np_sqrt : Q -> float) (returns factor_returns : list float),
    (2 <= List.length returns)%nat ->
    List.length factor_returns = List.length returns ->
    ((List.length (valid (map2 fsub returns factor_returns)) < 2)%nat ->
     nanstd np_sqrt (map2 fsub returns factor_returns) 1 = nan)
    /\ (nanstd np_sqrt (map2 fsub returns factor_returns) 1 = nan ->
        excess_sharpe np_sqrt returns (Series factor_returns) = Ok (fin 0))
    /\ (forall s,
          nanstd np_sqrt (map2 fsub returns factor_returns) 1 = fin s ->
          s == 0 ->
          excess_sharpe np_sqrt returns (Series factor_returns) = Ok nan)
    /\ (forall s,
          nanstd np_sqrt (map2 fsub returns factor_returns) 1 = fin s ->
          ~ s == 0 ->
          excess_sharpe np_sqrt returns (Series factor_returns)
          = Ok (fin (Qmean (valid (map2 fsub returns factor_returns)) / s))).
Proof.
  intros np_sqrt r f Hlen Hsame.
  assert (Hguard : (List.length r <? 2)%nat = false)
    by (apply Nat.ltb_ge; exact Hlen).
  assert (Hrun : excess_sharpe np_sqrt r (Series f)
                 = let tracking_error := nanstd np_sqrt (map2 fsub r f) 1 in
                   if isnan tracking_error then Ok (fin 0)
                   else if feqb tracking_error (fin 0) then Ok nan
                   else Ok (fdiv (nanmean (map2 fsub r f)) tracking_error)).
  { unfold excess_sharpe. rewrite Hguard. cbn [_adjust_returns].
    rewrite (np_sub_same_length _ _ Hsame). reflexivity. }
  cbv zeta in Hrun. repeat split.
  - intros Hfew. unfold nanstd.
    assert (E : (List.length (valid (map2 fsub r f)) <=? 1)%nat = true)
      by (apply Nat.leb_le; lia).
    rewrite E. reflexivity.
  - intros Hte. rewrite Hrun, Hte. reflexivity.
  - intros s Hte Hs. rewrite Hrun, Hte. cbn [isnan feqb].
    rewrite (Qeq_eq_bool _ _ Hs). reflexivity.
  - intros s Hte Hs. rewrite Hrun, Hte. cbn [isnan feqb].
    apply Qeq_bool_false_iff in Hs. rewrite Hs.
    destruct (nanstd_fin_valid _ _ _ Hte) as [q [t Hv]].
    unfold nanmean. rewrite Hv. cbn [fdiv]. rewrite Hs. reflexivity.
Qed.

Lemma excess_sharpe_tracking_error_cases_witness :
  excess_sharpe sqrt_rational [nan; nan] (Series [fin 0.01; fin 0.02]) = Ok (fin 0)
  /\ excess_sharpe sqrt_rational [fin 0.03; fin 0.03] (Series [fin 0.01; fin 0.01])
     = Ok nan
  /\ excess_sharpe sqrt_rational [fin 3; fin 1; fin 2] (Series [fin 0; fin 0; fin 0])
     = Ok (fin (Qmean (valid (map2 fsub [fin 3; fin 1; fin 2]
                                [fin 0; fin 0; fin 0])) / (1458 # 1458))).
Proof.
  split; [|split].
  - apply (proj1 (proj2 (excess_sharpe_tracking_error_cases sqrt_rational
                           [nan; nan] [fin 0.01; fin 0.02]
                           (le_n 2) eq_refl))).
    reflexivity.
  - refine (proj1 (proj2 (proj2 (excess_sharpe_tracking_error_cases sqrt_rational
                           [fin 0.03; fin 0.03] [fin 0.01; fin 0.01]
                           (le_n 2) eq_refl))) _ _ _).
    + vm_compute. reflexivity.
    + vm_compute. reflexivity.
  - refine (proj2 (proj2 (proj2 (excess_sharpe_tracking_error_cases sqrt_rational
                           [fin 3; fin 1; fin 2] [fin 0; fin 0; fin 0]
                           (le_S 2 2 (le_n 2)) eq_refl))) _ _ _).
    + vm_compute. reflexivity.
    + vm_compute. discriminate.
Defined.

(** ** Omega ratio *)

Lemma fold_left_Qplus (l : list Q) (a : Q) :
  fold_left Qplus l a == a + Qsum l.
Proof.
  revert a. induction l as [|x t IH]; intros a; simpl.
  - lra.
  - rewrite IH. unfold Qsum. lra.
Qed.

Lemma py_sum_fin (l : list Q) :
  exists q, py_sum (map fin l) = fin q /\ q == Qsum l.
Proof.
  unfold py_sum. exists (fold_left Qplus l 0). split.
  - generalize 0. induction l as [|x t IH]; intros a; simpl; [reflexivity|].
    apply IH.
  - rewrite fold_left_Qplus. lra.
Qed.

Lemma valid_adjust (returns : list float) (risk_free threshold : Q) :
  valid (map (fun x => fsub (fsub x (fin risk_free)) (fin threshold)) returns)
  = adjusted_returns returns risk_free threshold.
Proof.
  unfold adjusted_returns.
  induction returns as [|[|q] t IH]; simpl; [reflexivity| exact IH |].
  now rewrite IH.
Qed.

Lemma filter_fgt_valid (l : list float) :
  filter (fun x => fgt x (fin 0)) l
  = map fin (filter (fun x => Qlt_bool 0 x) (valid l)).
Proof.
  induction l as [|[|q] t IH]; simpl; [reflexivity| exact IH |].
  destruct (Qlt_bool 0 q); simpl; now rewrite IH.
Qed.

Lemma filter_flt_valid (l : list float) :
  filter (fun x => flt x (fin 0)) l
  = map fin (filter (fun x => Qlt_bool x 0) (valid l)).
Proof.
  induction l as [|[|q] t IH]; simpl; [reflexivity| exact IH |].
  destruct (Qlt_bool q 0); simpl; now rewrite IH.
Qed.

Lemma losses_below_nonpos (l : list Q) : losses_below l <= 0.
Proof.
  unfold losses_below, Qsum.
  induction l as [|x t IH]; simpl; [lra|].
  destruct (Qlt_bool x 0) eqn:E; simpl; [|exact IH].
  apply Qlt_bool_iff in E. lra.
Qed.

(** The losses sum to zero exactly when no adjusted return is below zero. *)
Lemma losses_below_zero_iff (l : list Q) :
  losses_below l == 0 <-> Forall (fun x => 0 <= x) l.
Proof.
  induction l as [|x t IH].
  - split; [constructor | reflexivity].
  - pose proof (losses_below_nonpos t) as Ht.
    unfold losses_below, Qsum in *. simpl.
    destruct (Qlt_bool x 0) eqn:E; simpl.
    + apply Qlt_bool_iff in E. split.
      * intros H. exfalso. lra.
      * intros H. inversion H as [|x' t' Hx _]; subst. exfalso. lra.
    + apply Qlt_bool_false_iff in E. split.
      * intros H. constructor; [exact E | apply IH; exact H].
      * intros H. inversion H as [|x' t' _ Ht']; subst. apply IH. exact Ht'.
Qed.

(** Once the threshold is known: NaN without losses, else gains over the
    negated losses. *)
Lemma omega_split_ratio (returns : list float) (risk_free threshold : Q) :
  let adjusted := adjusted_returns returns risk_free threshold in
  (losses_below adjusted == 0 -> omega_split returns risk_free threshold = nan)
  /\ (~ losses_below adjusted == 0 ->
      exists v, omega_split returns risk_free threshold = fin v
                /\ v == gains_above adjusted / - losses_below adjusted).
Proof.
  cbv zeta. unfold omega_split.
  rewrite filter_fgt_valid, filter_flt_valid, valid_adjust.
  set (adj := adjusted_returns returns risk_free threshold).
  destruct (py_sum_fin (filter (fun x => Qlt_bool 0 x) adj)) as [g [Eg Hg]].
  destruct (py_sum_fin (filter (fun x => Qlt_bool x 0) adj)) as [l [El Hl]].
  rewrite Eg, El. cbn [fmul fgt].
  fold (gains_above adj) in Hg. fold (losses_below adj) in Hl.
  pose proof (losses_below_nonpos adj) as Hle.
  split.
  - intros H0.
    assert (E : Qlt_bool 0 (-1 * l) = false)
      by (apply Qlt_bool_false_iff; rewrite Hl; lra).
    rewrite E. reflexivity.
  - intros Hn.
    assert (E : Qlt_bool 0 (-1 * l) = true)
      by (apply Qlt_bool_iff; rewrite Hl; lra).
    rewrite E. cbn [fdiv].
    assert (Z : Qeq_bool (-1 * l) 0 = false)
      by (apply Qeq_bool_false_iff; rewrite Hl; lra).
    rewrite Z. eexists. split; [reflexivity|].
    rewrite Hg, Hl. field. lra.
Qed.

(** C6 as stated fails.  With [annualization = 1] the guard on
    [required_return] is not consulted: for the returns [1, -3] and
    [required_return = -1] the ratio is [2 / 2], not NaN.  And a series of
    one return gives NaN although it has a loss. *)
Lemma omega_ratio_guard_skipped :
  -1 <= -1
  /\ omega_ratio (fun x _ => x) [fin 1; fin (-3)] 0 (-1) 1 <> Ok nan
  /\ (exists v, omega_ratio (fun x _ => x) [fin 1; fin (-3)] 0 (-1) 1 = Ok (fin v)
                /\ v == 1)
  /\ ~ losses_below (adjusted_returns [fin (-0.01)] 0 0) == 0
  /\ omega_ratio (fun x _ => x) [fin (-0.01)] 0 0 1 = Ok nan.
Proof.
  split; [lra|]. split; [vm_compute; discriminate|].
  split; [eexists; split; [vm_compute; reflexivity | reflexivity]|].
  split; [vm_compute; discriminate | reflexivity].
Qed.

(** C6, amended.  [omega_ratio] is NaN on fewer than 2 returns.  On 2 or
    more: with [annualization = 1] the threshold is [required_return]
    itself; otherwise [required_return <= -1] gives NaN, and for
    [required_return > -1] and a non-zero [annualization] the threshold is
    [(1 + required_return) ** (1 / annualization) - 1].  With the threshold
    set, the result is NaN when the adjusted returns below the threshold
    sum to zero, which is when there are none, and otherwise the sum of the
    gains over the negated sum of the losses. *)
Theorem omega_ratio_guards_and_ratio :
  forall (py_pow : Q -> Q -> Q) (returns : list float)
         (risk_free required_return annualization : Q),
    ((List.length returns < 2)%nat ->
     omega_ratio py_pow returns risk_free required_return annualization = Ok nan)
    /\ ((2 <= List.length returns)%nat ->
        ~ annualization == 1 -> required_return <= -1 ->
        omega_ratio py_pow returns risk_free required_return annualization = Ok nan)
    /\ (forall threshold,
          (2 <= List.length returns)%nat ->
          (annualization == 1 /\ threshold = required_return)
          \/ (~ annualization == 1 /\ ~ annualization == 0
              /\ -1 < required_return
              /\ threshold = py_pow (1 + required_return) (1 / annualization) - 1) ->
          let adjusted := adjusted_returns returns risk_free threshold in
          (losses_below adjusted == 0 <-> Forall (fun x => 0 <= x) adjusted)
          /\ (losses_below adjusted == 0 ->
              omega_ratio py_pow returns risk_free required_return annualization
              = Ok nan)
          /\ (~ losses_below adjusted == 0 ->
              exists v,
                omega_ratio py_pow returns risk_free required_return annualization
                = Ok (fin v)
                /\ v == gains_above adjusted / - losses_below adjusted)).
Proof.
  intros py_pow r rf rr ann. split; [|split].
  - intros H. unfold omega_ratio.
    assert (E : (List.length r <? 2)%nat = true) by (apply Nat.ltb_lt; exact H).
    rewrite E. reflexivity.
  - intros H Hann Hrr. unfold omega_ratio.
    assert (E : (List.length r <? 2)%nat = false) by (apply Nat.ltb_ge; exact H).
    rewrite E. apply Qeq_bool_false_iff in Hann. rewrite Hann.
    apply Qle_bool_iff in Hrr. rewrite Hrr. reflexivity.
  - intros thr H Hthr. cbv zeta.
    assert (E : (List.length r <? 2)%nat = false) by (apply Nat.ltb_ge; exact H).
    assert (Hrun : omega_ratio py_pow r rf rr ann = Ok (omega_split r rf thr)).
    { unfold omega_ratio. rewrite E.
      destruct Hthr as [[Hann Ht]|[Hann [Hz [Hrr Ht]]]]; subst thr.
      - rewrite (Qeq_eq_bool _ _ Hann). reflexivity.
      - apply Qeq_bool_false_iff in Hann, Hz. rewrite Hann, Hz.
        assert (G : Qle_bool rr (-1) = false).
        { destruct (Qle_bool rr (-1)) eqn:G; [|reflexivity].
          apply Qle_bool_iff in G. lra. }
        rewrite G. reflexivity. }
    destruct (omega_split_ratio r rf thr) as [Hnan Hratio].
    split; [apply losses_below_zero_iff|]. split.
    + intros H0. rewrite Hrun, (Hnan H0). reflexivity.
    + intros Hn. destruct (Hratio Hn) as [v [Ev Hv]].
      exists v. split; [rewrite Hrun, Ev; reflexivity | exact Hv].
Qed.

Lemma omega_ratio_guards_and_ratio_witness :
  omega_ratio (fun x _ => x) [fin 0.02] 0 0 252 = Ok nan
  /\ omega_ratio (fun x _ => x) [fin 0.02; fin (-0.01)] 0 (-2) 252 = Ok nan
  /\ omega_ratio (fun x _ => x) [fin 0.02; fin 0.01] 0 0 1 = Ok nan
  /\ (exists v,
        omega_ratio (fun x _ => x) [fin 0.02; fin (-0.01)] 0 0 1 = Ok (fin v)
        /\ v == gains_above (adjusted_returns [fin 0.02; fin (-0.01)] 0 0)
                / - losses_below (adjusted_returns [fin 0.02; fin (-0.01)] 0 0)).
Proof.
  split; [|split; [|split]].
  - apply (proj1 (omega_ratio_guards_and_ratio (fun x _ => x) [fin 0.02] 0 0 252)).
    apply le_n.
  - apply (proj1 (proj2 (omega_ratio_guards_and_ratio (fun x _ => x)
                           [fin 0.02; fin (-0.01)] 0 (-2) 252))).
    + apply le_n.
    + vm_compute. discriminate.
    + vm_compute. discriminate.
  - refine (proj1 (proj2 (proj2 (proj2 (omega_ratio_guards_and_ratio (fun x _ => x)
                           [fin 0.02; fin 0.01] 0 0 1)) 0 (le_n 2) _)) _).
    + left. split; reflexivity.
    + vm_compute. reflexivity.
  - refine (proj2 (proj2 (proj2 (proj2 (omega_ratio_guards_and_ratio (fun x _ => x)
                           [fin 0.02; fin (-0.01)] 0 0 1)) 0 (le_n 2) _)) _).
    + left. split; reflexivity.
    + vm_compute. discriminate.
Defined.

(** ** Beta *)

Lemma Qsum_Forall2 (l l' : list Q) : Forall2 Qeq l l' -> Qsum l == Qsum l'.
Proof.
  induction 1 as [|x y t u Hxy _ IH]; simpl; [reflexivity|].
  rewrite Hxy, IH. reflexivity.
Qed.

Lemma Qmean_Forall2 (l l' : list Q) : Forall2 Qeq l l' -> Qmean l == Qmean l'.
Proof.
  intros H. unfold Qmean.
  rewrite (Qsum_Forall2 _ _ H), (Forall2_length H). reflexivity.
Qed.

Lemma Forall2_map2 {A B : Type} (R : A -> A -> Prop) (S : B -> B -> Prop)
      (F F' : A -> B) (l l' : list A) :
  (forall a a', R a a' -> S (F a) (F' a')) ->
  Forall2 R l l' -> Forall2 S (map F l) (map F' l').
Proof.
  intros HF. induction 1; simpl; constructor; auto.
Qed.

Lemma obs_eq_snd (J J' : list (Q * Q)) :
  Forall2 obs_eq J J' -> map snd J = map snd J'.
Proof.
  induction 1 as [|p q t u [_ H2] _ IH]; simpl; [reflexivity|].
  now rewrite H2, IH.
Qed.

Lemma obs_eq_fst (J J' : list (Q * Q)) :
  Forall2 obs_eq J J' -> Forall2 Qeq (map fst J) (map fst J').
Proof.
  apply Forall2_map2. intros a a' [H _]. exact H.
Qed.

Lemma population_cov_obs_eq (J J' : list (Q * Q)) :
  Forall2 obs_eq J J' -> population_cov J == population_cov J'.
Proof.
  intros H. unfold population_cov. apply Qmean_Forall2.
  pose proof (Qmean_Forall2 _ _ (obs_eq_fst _ _ H)) as Hm.
  rewrite (obs_eq_snd _ _ H).
  revert H. apply Forall2_map2.
  intros a a' [H1 H2]. rewrite H1, H2, Hm. reflexivity.
Qed.

Lemma dot_centred {A : Type} (g h : A -> Q) (l : list A) :
  np_dot (map g l) (map h l) = Qsum (map (fun a => g a * h a) l).
Proof.
  unfold np_dot. f_equal.
  induction l as [|a t IH]; simpl; [reflexivity|]. now rewrite IH.
Qed.

(** The entries of numpy's matrix are the spec's covariance and variance. *)
Lemma np_cov_entries (J : list (Q * Q)) :
  snd (fst (np_cov 0 J)) = population_cov J
  /\ snd (snd (np_cov 0 J)) = population_var (map snd J).
Proof.
  unfold np_cov, population_cov, population_var, Qmean. cbn [fst snd].
  rewrite Nat.sub_0_r, !length_map. split.
  - rewrite (map_map fst), (map_map snd).
    rewrite (dot_centred (fun p => fst p - _) (fun p => snd p - _)).
    rewrite ?length_map. reflexivity.
  - rewrite (dot_centred (fun y => y - _) (fun y => y - _)).
    rewrite ?length_map. reflexivity.
Qed.

Lemma joint_valid_length (r f : list float) (rf : Q) :
  (List.length (joint_valid r f rf) <= List.length r)%nat.
Proof.
  revert f. induction r as [|[|x] t IH]; intros [|[|y] u]; simpl;
    try lia; specialize (IH u); lia.
Qed.

Lemma drop_nan_columns_same (r f : list float) (rf : Q) :
  rf == 0 ->
  Forall2 obs_eq (drop_nan_columns (combine r f)) (joint_valid r f rf).
Proof.
  intros H0. revert f.
  induction r as [|[|x] t IH]; intros [|[|y] u]; simpl;
    try constructor; try apply IH.
  split; simpl; [lra | reflexivity].
Qed.

Lemma drop_nan_columns_shifted (r f : list float) (rf : Q) :
  Forall2 obs_eq
    (drop_nan_columns (combine (map (fun x => fsub x (fin rf)) r) f))
    (joint_valid r f rf).
Proof.
  revert f.
  induction r as [|[|x] t IH]; intros [|[|y] u]; simpl;
    try constructor; try apply IH.
  split; reflexivity.
Qed.

(** The columns that the code keeps are the joint-valid observations. *)
Lemma beta_aligned_joint (r f : list float) (rf : Q) :
  List.length r = List.length f ->
  exists J,
    (adj <- _adjust_returns r (Scalar rf) ;;
     joint <- np_vstack adj f ;;
     Ok (drop_nan_columns joint)) = Ok J
    /\ Forall2 obs_eq J (joint_valid r f rf).
Proof.
  intros Hlen. cbn [_adjust_returns]. destruct (Qeq_bool rf 0) eqn:E.
  - exists (drop_nan_columns (combine r f)). split.
    + cbn [bind]. unfold np_vstack. rewrite Hlen, Nat.eqb_refl. reflexivity.
    + apply drop_nan_columns_same. apply Qeq_bool_eq. exact E.
  - exists (drop_nan_columns (combine (map (fun x => fsub x (fin rf)) r) f)). split.
    + cbn [bind]. unfold np_vstack. rewrite length_map, Hlen, Nat.eqb_refl.
      reflexivity.
    + apply drop_nan_columns_shifted.
Qed.

(** C5.  For two series of the same length, [beta_aligned] keeps the
    indices where both hold a number and returns the population covariance
    of (adjusted returns, factor returns) over the population variance of
    the factor returns; it is NaN exactly when fewer than 2 such
    observations remain or the magnitude of that variance is below 1e-30. *)
Theorem beta_aligned_population_ratio :
  forall (returns factor_returns : list float) (risk_free : Q),
    List.length returns = List.length factor_returns ->
    (((List.length (joint_valid returns factor_returns risk_free) < 2)%nat
      \/ Qabs (population_var
                 (map snd (joint_valid returns factor_returns risk_free)))
         < 1e-30) ->
     beta_aligned returns factor_returns risk_free = Ok nan)
    /\ (~ ((List.length (joint_valid returns factor_returns risk_free) < 2)%nat
           \/ Qabs (population_var
                      (map snd (joint_valid returns factor_returns risk_free)))
              < 1e-30) ->
        exists b,
          beta_aligned returns factor_returns risk_free = Ok (fin b)
          /\ b == population_cov (joint_valid returns factor_returns risk_free)
                  / population_var
                      (map snd (joint_valid returns factor_returns risk_free))).
Proof.
  intros r f rf Hlen.
  destruct (beta_aligned_joint r f rf Hlen) as [J [HJ Hobs]].
  set (obs := joint_valid r f rf) in *.
  pose proof (joint_valid_length r f rf) as Hle. fold obs in Hle.
  pose proof (Forall2_length Hobs) as HlenJ.
  destruct (np_cov_entries J) as [Hc Hv].
  rewrite (obs_eq_snd _ _ Hobs) in Hv.
  assert (Hrun : beta_aligned r f rf
                 = if (List.length r <? 2)%nat || (List.length f <? 2)%nat
                   then Ok nan
                   else if (List.length obs <? 2)%nat then Ok nan
                   else if Qlt_bool (Qabs (population_var (map snd obs))) 1e-30
                   then Ok nan
                   else Ok (fin (population_cov J / population_var (map snd obs)))).
  { unfold beta_aligned.
    destruct ((List.length r <? 2)%nat || (List.length f <? 2)%nat); [reflexivity|].
    revert HJ. destruct (_adjust_returns r (Scalar rf)) as [adj|e]; cbn [bind];
      [|discriminate].
    destruct (np_vstack adj f) as [joint|e]; cbn [bind]; [|discriminate].
    intros HJ. injection HJ as HJ. rewrite HJ, HlenJ, Hc, Hv. reflexivity. }
  split.
  - intros [Hfew|Hsmall]; rewrite Hrun.
    + destruct ((List.length r <? 2)%nat || (List.length f <? 2)%nat); [reflexivity|].
      assert (E : (List.length obs <? 2)%nat = true) by (apply Nat.ltb_lt; exact Hfew).
      rewrite E. reflexivity.
    + destruct ((List.length r <? 2)%nat || (List.length f <? 2)%nat); [reflexivity|].
      destruct (List.length obs <? 2)%nat; [reflexivity|].
      apply Qlt_bool_iff in Hsmall. rewrite Hsmall. reflexivity.
  - intros Hnot. rewrite Hrun.
    assert (E1 : (List.length r <? 2)%nat || (List.length f <? 2)%nat = false).
    { apply orb_false_iff. rewrite <- Hlen.
      split; apply Nat.ltb_ge; destruct (Nat.lt_ge_cases (List.length obs) 2);
        try lia; exfalso; apply Hnot; left; assumption. }
    assert (E2 : (List.length obs <? 2)%nat = false).
    { apply Nat.ltb_ge. destruct (Nat.lt_ge_cases (List.length obs) 2); [|assumption].
      exfalso. apply Hnot. left. assumption. }
    assert (E3 : Qlt_bool (Qabs (population_var (map snd obs))) 1e-30 = false).
    { destruct (Qlt_bool (Qabs (population_var (map snd obs))) 1e-30) eqn:E;
        [|reflexivity].
      exfalso. apply Hnot. right. apply Qlt_bool_iff. exact E. }
    rewrite E1, E2, E3. eexists. split; [reflexivity|].
    rewrite (population_cov_obs_eq _ _ Hobs). reflexivity.
Qed.

Lemma beta_aligned_population_ratio_witness :
  beta_aligned [fin 0.1; nan] [fin 0.2; fin 0.3] 0 = Ok nan
  /\ (exists b,
        beta_aligned [fin 0.1; fin 0.2; nan; fin 0.4]
                     [fin 0.2; fin 0.4; fin 1; fin 0.8] 0 = Ok (fin b)
        /\ b == population_cov (joint_valid [fin 0.1; fin 0.2; nan; fin 0.4]
                                  [fin 0.2; fin 0.4; fin 1; fin 0.8] 0)
                / population_var
                    (map snd (joint_valid [fin 0.1; fin 0.2; nan; fin 0.4]
                                [fin 0.2; fin 0.4; fin 1; fin 0.8] 0))).
Proof.
  split.
  - apply (proj1 (beta_aligned_population_ratio [fin 0.1; nan] [fin 0.2; fin 0.3]
                    0 eq_refl)).
    left. apply le_n.
  - apply (proj2 (beta_aligned_population_ratio
                    [fin 0.1; fin 0.2; nan; fin 0.4]
                    [fin 0.2; fin 0.4; fin 1; fin 0.8] 0 eq_refl)).
    intros [H|H].
    + vm_compute in H. lia.
    + vm_compute in H. discriminate H.
Defined.

(** ** The empty series *)

(** C3 (the code departs from the claim).  The claim gives NaN for the
    empty series passed to [value_at_risk].  The code hands the series to
    [np.percentile] without the length test that the other metrics start
    with, and numpy raises [IndexError] on an array without entries (a
    [ValueError] when the cutoff is outside [0, 1]): on the empty series
    [value_at_risk] raises for every cutoff.  [conditional_value_at_risk]
    does give NaN there, and so do the metrics that test the length. *)
Theorem value_at_risk_raises_on_empty :
  value_at_risk numpy_percentile [] 0.05
  = Raise (IndexError "index -1 is out of bounds for axis 0 with size 0")
  /\ (forall cutoff, exists e,
        value_at_risk numpy_percentile [] cutoff = Raise e)
  /\ (forall cutoff,
        conditional_value_at_risk numpy_partition [] cutoff = Ok nan)
  /\ max_drawdown [] = nan
  /\ (forall starting_value, cum_returns_final [] starting_value = nan)
  /\ (forall np_power period annualization,
        annual_return np_power [] period annualization = Ok nan)
  /\ (forall np_sqrt risk_free period annualization,
        sharpe_ratio np_sqrt [] risk_free period annualization = Ok nan)
  /\ (forall np_sqrt required_return period annualization,
        downside_risk np_sqrt [] required_return period annualization = Ok nan)
  /\ (forall py_pow risk_free required_return annualization,
        omega_ratio py_pow [] risk_free required_return annualization = Ok nan).
Proof.
  split; [reflexivity|]. split.
  { intros cutoff. unfold value_at_risk, numpy_percentile.
    destruct (Qlt_bool (100 * cutoff) 0 || Qlt_bool 100 (100 * cutoff));
      eexists; reflexivity. }
  split.
  { intros cutoff. unfold conditional_value_at_risk, numpy_partition.
    cbv zeta. cbn [bind]. unfold slice_to.
    destruct (0 <=? _)%Z; rewrite firstn_nil; reflexivity. }
  repeat split; reflexivity.
Qed.


(** * Further properties of the code *)

(** ** The cumulative transform, as the code computes it *)

Lemma zero_fill_fin (returns : list float) :
  zero_fill returns = map fin (filled_values returns).
Proof.
  unfold zero_fill, filled_values. rewrite map_map.
  apply map_ext. intros [|q]; reflexivity.
Qed.

Lemma existsb_isnan_false_fill (returns : list float) :
  existsb isnan returns = false -> zero_fill returns = returns.
Proof.
  unfold zero_fill. induction returns as [|[|q] t IH]; simpl; intros H.
  - reflexivity.
  - discriminate H.
  - now rewrite IH.
Qed.

(** The local [returns] of [cum_returns] after the NaN test is the
    zero-filled series in both branches. *)
Lemma cum_returns_filled (returns : list float) :
  (if existsb isnan returns
   then map (fun x => if isnan x then fin 0 else x) returns
   else returns) = zero_fill returns.
Proof.
  destruct (existsb isnan returns) eqn:E; [reflexivity|].
  symmetry. apply existsb_isnan_false_fill. exact E.
Qed.

Lemma cum_returns_eval (x : float) (t : list float) (starting_value : Q) :
  cum_returns_entries (x :: t) starting_value
  = if Qeq_bool starting_value 0
    then map (fun y => fsub y (fin 1))
           (map (fun y => fadd y (fin 1)) (cumsum (zero_fill (x :: t))))
    else map (fun y => fadd y (fin 1)) (cumsum (zero_fill (x :: t))).
Proof.
  unfold cum_returns_entries, cum_returns.
  change (List.length (x :: t) <? 1)%nat with false. cbv iota beta zeta.
  rewrite cum_returns_filled. reflexivity.
Qed.

Lemma zero_fill_idempotent (returns : list float) :
  zero_fill (zero_fill returns) = zero_fill returns.
Proof.
  unfold zero_fill. rewrite map_map. apply map_ext. intros [|q]; reflexivity.
Qed.

Lemma cum_returns_entries_zero_fill (returns : list float) (starting_value : Q) :
  cum_returns_entries (zero_fill returns) starting_value
  = cum_returns_entries returns starting_value.
Proof.
  destruct returns as [|x t]; [reflexivity|].
  change (zero_fill (x :: t))
    with ((if isnan x then fin 0 else x) :: zero_fill t).
  rewrite !cum_returns_eval.
  change ((if isnan x then fin 0 else x) :: zero_fill t)
    with (zero_fill (x :: t)).
  rewrite zero_fill_idempotent. reflexivity.
Qed.

Lemma cum_returns_zero_fill (type_returns : container) (returns : list float)
    (starting_value : Q) :
  cum_returns type_returns (zero_fill returns) starting_value
  = cum_returns type_returns returns starting_value.
Proof.
  destruct returns as [|x t]; [reflexivity|].
  rewrite (cum_returns_nonempty type_returns x t).
  rewrite <- cum_returns_entries_zero_fill.
  apply cum_returns_nonempty.
Qed.

Lemma Qlevels_spec (x : float) (t : list float) :
  cum_returns_entries (x :: t) 100 = map fin (Qlevels (filled_values (x :: t))).
Proof.
  rewrite cum_returns_eval. change (Qeq_bool 100 0) with false. cbv iota.
  rewrite zero_fill_fin. cbn [filled_values map cumsum Qlevels].
  fold (filled_values t). rewrite cumsum_from_fin. cbn [map fadd].
  rewrite !map_map. reflexivity.
Qed.

(** X1.  A NaN return counts as a zero return: replacing every NaN by 0.0
    changes neither [cum_returns], nor [cum_returns_final], nor
    [max_drawdown]. *)
Theorem nan_counts_as_zero_return :
  forall (returns : list float) (starting_value : Q),
    (forall type_returns,
       cum_returns type_returns (zero_fill returns) starting_value
       = cum_returns type_returns returns starting_value)
    /\ cum_returns_final (zero_fill returns) starting_value
       = cum_returns_final returns starting_value
    /\ max_drawdown (zero_fill returns) = max_drawdown returns.
Proof.
  intros r sv.
  split; [intros type_returns; apply cum_returns_zero_fill|]. split.
  - unfold cum_returns_final. rewrite cum_returns_zero_fill.
    unfold zero_fill. rewrite length_map. reflexivity.
  - unfold max_drawdown. rewrite cum_returns_zero_fill.
    unfold zero_fill. rewrite length_map. reflexivity.
Qed.

Lemma Qrun_shift (qs : list Q) (s s' : Q) :
  s == s' -> Forall2 Qeq (Qrun s qs) (Qrun s' qs).
Proof.
  revert s s'. induction qs as [|q t IH]; intros s s' H; simpl; constructor.
  - rewrite H. reflexivity.
  - apply IH. rewrite H. reflexivity.
Qed.

Lemma Forall2_feq_fin (l l' : list Q) (F G : Q -> Q) :
  (forall a b, a == b -> F a == G b) ->
  Forall2 Qeq l l' -> Forall2 feq (map (fun a => fin (F a)) l) (map (fun b => fin (G b)) l').
Proof.
  intros HF. induction 1; simpl; constructor; auto. simpl. auto.
Qed.

Lemma cum_returns_shape (r : list float) (sv : Q) :
  Forall2 feq (cum_returns_entries r sv)
    (map (fun s => fin (if Qeq_bool sv 0 then s else s + 1))
         (Qrun 0 (filled_values r))).
Proof.
    destruct r as [|x t]; [constructor|].
    rewrite cum_returns_eval, zero_fill_fin.
    cbn [filled_values map cumsum Qrun]. fold (filled_values t).
    set (q := match x with nan => 0 | fin q => q end).
    rewrite cumsum_from_fin.
    destruct (Qeq_bool sv 0); cbn [map fadd fsub]; rewrite !map_map;
      cbn [fadd fsub]; constructor.
    - simpl. lra.
    - apply (Forall2_feq_fin _ _ (fun a => a + 1 - 1) (fun b => b)).
      + intros a b H. lra.
      + apply Qrun_shift. lra.
    - simpl. lra.
    - apply (Forall2_feq_fin _ _ (fun a => a + 1) (fun b => b + 1)).
      + intros a b H. lra.
      + apply Qrun_shift. lra.
Qed.

(** X2.  What [cum_returns] returns is built from the running sum of the
    zero-filled returns: entry [i] is [r_0 + ... + r_i] for
    [starting_value = 0], and one more than that for any other starting
    value; no entry is NaN.  So it is for a non-empty input in either
    container; the empty [pd.Series] gives the empty series. *)
Theorem cum_returns_running_sum :
  (forall (type_returns : container) (x : float) (t : list float)
          (starting_value : Q),
     exists cumulative,
       cum_returns type_returns (x :: t) starting_value = OneDim cumulative
       /\ Forall2 feq cumulative
            (map (fun s => fin (if Qeq_bool starting_value 0 then s else s + 1))
                 (Qrun 0 (filled_values (x :: t))))
       /\ Forall (fun y => isnan y = false) cumulative)
  /\ (forall starting_value,
        cum_returns pd_Series [] starting_value = OneDim []).
Proof.
  split; [|reflexivity].
  intros type_returns x t sv.
  exists (cum_returns_entries (x :: t) sv).
  split; [apply cum_returns_nonempty|].
  pose proof (cum_returns_shape (x :: t) sv) as Hshape.
  split; [exact Hshape|].
  clear - Hshape. revert Hshape.
  generalize (cum_returns_entries (x :: t) sv).
  generalize (Qrun 0 (filled_values (x :: t))).
  intros l l'. revert l. induction l' as [|y u IH]; intros l H.
  - constructor.
  - destruct l as [|a l]; inversion H as [|? ? ? ? Hy Ht]; subst.
    constructor; [destruct y; [contradiction|reflexivity] | eapply IH; exact Ht].
Qed.

Lemma Forall2_last {A B : Type} (R : A -> B -> Prop) (l : list A) (l' : list B)
      (d : A) (d' : B) :
  Forall2 R l l' -> l <> [] -> R (last l d) (last l' d').
Proof.
  induction 1 as [|x y t u Hxy Ht IH]; intros Hne; [congruence|].
  destruct Ht as [|x' y' t' u' Hxy' Ht'].
  - exact Hxy.
  - apply IH. discriminate.
Qed.

Lemma Qrun_last (qs : list Q) (s : Q) : last (Qrun s qs) s == s + Qsum qs.
Proof.
  revert s. induction qs as [|q t IH]; intros s; simpl.
  - lra.
  - destruct (Qrun (s + q) t) as [|y u] eqn:E.
    + destruct t; [simpl; lra | discriminate E].
    + rewrite <- E. rewrite (last_default _ s (s + q)) by (rewrite E; discriminate).
      rewrite IH. unfold Qsum. lra.
Qed.

Lemma Qsum_filled_valid (r : list float) :
  Qsum (filled_values r) == Qsum (valid r).
Proof.
  induction r as [|[|q] t IH]; simpl.
  - reflexivity.
  - fold (filled_values t). rewrite IH. lra.
  - fold (filled_values t). rewrite IH. reflexivity.
Qed.

Lemma cum_returns_final_total (r : list float) (sv : Q) :
  r <> [] ->
  feq (cum_returns_final r sv)
      (fin (if Qeq_bool sv 0 then Qsum (valid r) else Qsum (valid r) + 1)).
Proof.
  intros Hne. rewrite cum_returns_final_entries.
  destruct r as [|x t]; [congruence|].
  change (List.length (x :: t) =? 0)%nat with false. cbv iota.
  set (F := fun s => fin (if Qeq_bool sv 0 then s else s + 1)).
  assert (Hc : cum_returns_entries (x :: t) sv <> []).
  { intros E. apply (f_equal (@List.length float)) in E.
    rewrite cum_returns_length in E. discriminate E. }
  eapply feq_trans.
  - apply (Forall2_last feq _ _ nan (F 0) (cum_returns_shape (x :: t) sv) Hc).
  - fold F. rewrite (last_map F). unfold F.
    pose proof (Qrun_last (filled_values (x :: t)) 0) as Hl.
    pose proof (Qsum_filled_valid (x :: t)) as Hs.
    destruct (Qeq_bool sv 0); cbn [feq]; lra.
Qed.

(** X3.  On a non-empty series [cum_returns_final] is the plain total of
    the returns that are numbers when [starting_value = 0], and one more
    than that total for any other starting value. *)
Theorem cum_returns_final_is_total :
  forall (returns : list float) (starting_value : Q),
    returns <> [] ->
    (starting_value == 0 ->
     feq (cum_returns_final returns starting_value) (fin (Qsum (valid returns))))
    /\ (~ starting_value == 0 ->
        feq (cum_returns_final returns starting_value)
            (fin (Qsum (valid returns) + 1))).
Proof.
  intros r sv Hne. pose proof (cum_returns_final_total r sv Hne) as H.
  split; intros Hsv.
  - rewrite (Qeq_eq_bool _ _ Hsv) in H. exact H.
  - apply Qeq_bool_false_iff in Hsv. rewrite Hsv in H. exact H.
Qed.

Lemma cum_returns_final_is_total_witness :
  feq (cum_returns_final [fin 0.1; nan; fin (-0.05)] 0)
      (fin (Qsum (valid [fin 0.1; nan; fin (-0.05)])))
  /\ feq (cum_returns_final [fin 0.1; nan; fin (-0.05)] 1)
         (fin (Qsum (valid [fin 0.1; nan; fin (-0.05)]) + 1)).
Proof.
  split.
  - apply (proj1 (cum_returns_final_is_total [fin 0.1; nan; fin (-0.05)] 0
                    ltac:(discriminate))).
    reflexivity.
  - apply (proj2 (cum_returns_final_is_total [fin 0.1; nan; fin (-0.05)] 1
                    ltac:(discriminate))).
    vm_compute. discriminate.
Defined.

(** ** Drawdown, as the code computes it *)

Lemma Qrunmax_ge (m c : Q) : 1 <= m -> 1 <= (if Qle_bool m c then c else m).
Proof.
  intros H. destruct (Qle_bool m c) eqn:E; [|exact H].
  apply Qle_bool_iff in E. lra.
Qed.

Lemma Qdrawdowns_spec (cs : list Q) (m : Q) :
  1 <= m ->
  map2 fdiv
    (map2 fsub (map fin cs) (fmax_accumulate_from (fin m) (map fin cs)))
    (fmax_accumulate_from (fin m) (map fin cs))
  = map fin (Qdrawdowns m cs).
Proof.
  revert m. induction cs as [|c t IH]; intros m Hm; [reflexivity|].
  pose proof (Qrunmax_ge m c Hm) as Hm'.
  cbn [map fmax_accumulate_from fmax map2 Qdrawdowns].
  destruct (Qle_bool m c); cbn [fsub fdiv map2].
  - assert (Z : Qeq_bool c 0 = false) by (apply Qeq_bool_false_iff; lra).
    rewrite Z, (IH c Hm'). reflexivity.
  - assert (Z : Qeq_bool m 0 = false) by (apply Qeq_bool_false_iff; lra).
    rewrite Z, (IH m Hm'). reflexivity.
Qed.

Lemma max_drawdown_eval (x : float) (t : list float) :
  max_drawdown (x :: t)
  = fin (Qmin_fold (Qdrawdowns 1 (Qlevels (filled_values (x :: t))))
           ((1 - 1) / 1)).
Proof.
  rewrite max_drawdown_unfold, Qlevels_spec, Qdrawdowns_spec by lra.
  rewrite valid_map_fin. reflexivity.
Qed.

Lemma Qmin_fold_app (l l' : list Q) (q : Q) :
  Qmin_fold (l ++ l') q = Qmin_fold l' (Qmin_fold l q).
Proof. unfold Qmin_fold. apply fold_left_app. Qed.

Lemma Qdrawdowns_nonneg (cs : list Q) (m : Q) :
  1 <= m -> nondecreasing_from m cs ->
  Forall (fun d => 0 <= d) (Qdrawdowns m cs).
Proof.
  revert m. induction cs as [|c t IH]; intros m Hm Hnd; [constructor|].
  destruct Hnd as [Hmc Hnd]. cbn [Qdrawdowns].
  assert (E : Qle_bool m c = true) by (apply Qle_bool_iff; exact Hmc).
  rewrite E. constructor.
  - rewrite Qdiv_self_sub; lra.
  - apply IH; [lra | exact Hnd].
Qed.

Lemma Qlevels_nondecreasing (qs : list Q) :
  Forall (fun q => 0 <= q) qs -> nondecreasing_from 1 (Qlevels qs).
Proof.
  destruct qs as [|q t]; intros H; [exact I|].
  inversion H as [|q' t' Hq Ht]; subst. cbn [Qlevels nondecreasing_from].
  split; [lra|]. apply Qrun_nondecreasing. exact Ht.
Qed.

Lemma nonneg_or_negative (qs : list Q) :
  Forall (fun q => 0 <= q) qs \/ Exists (fun q => q < 0) qs.
Proof.
  induction qs as [|q t [IH|IH]].
  - left. constructor.
  - destruct (Qlt_le_dec q 0) as [Hlt|Hge].
    + right. apply Exists_cons_hd. exact Hlt.
    + left. constructor; assumption.
  - right. apply Exists_cons_tl. exact IH.
Qed.

Lemma filled_negative_iff (r : list float) :
  Exists (fun q => q < 0) (filled_values r)
  <-> Exists (fun x => exists q, x = fin q /\ q < 0) r.
Proof.
  induction r as [|x t IH].
  - split; intros H; inversion H.
  - cbn [filled_values map]. fold (filled_values t).
    split; intros H; inversion H as [y u Hh|y u Ht]; subst.
    + apply Exists_cons_hd. destruct x as [|q]; [exfalso; lra|].
      exists q. split; [reflexivity | exact Hh].
    + apply Exists_cons_tl. apply IH. exact Ht.
    + apply Exists_cons_hd. destruct Hh as [q [E Hq]]. subst x. exact Hq.
    + apply Exists_cons_tl. apply IH. exact Ht.
Qed.

(** X4.  A strictly negative [max_drawdown] shows a losing period.  On a
    non-empty series whose entries are all NaN or numbers [>= 0] the
    drawdown is exactly 0; so when it is below 0, some return is a negative
    number. *)
Theorem max_drawdown_negative_needs_loss :
  forall returns : list float,
    returns <> [] ->
    exists d,
      max_drawdown returns = fin d
      /\ (Forall (fun y => y = nan \/ exists q, y = fin q /\ 0 <= q) returns ->
          d == 0)
      /\ (d < 0 -> Exists (fun y => exists q, y = fin q /\ q < 0) returns).
Proof.
  intros r Hne. destruct r as [|x t]; [congruence|].
  rewrite max_drawdown_eval. eexists. split; [reflexivity|].
  set (d := Qmin_fold (Qdrawdowns 1 (Qlevels (filled_values (x :: t))))
              ((1 - 1) / 1)).
  assert (Hle : d <= 0).
  { eapply Qle_trans; [apply Qmin_fold_le|]. apply Qle_lteq. right. field. }
  assert (Hzero : Forall (fun q => 0 <= q) (filled_values (x :: t)) -> 0 <= d).
  { intros Hall. apply Qmin_fold_ge; [apply Qle_lteq; right; field|].
    apply Qdrawdowns_nonneg; [lra|]. apply Qlevels_nondecreasing. exact Hall. }
  split.
  - intros Hall. apply Qle_antisym; [exact Hle|]. apply Hzero.
    unfold filled_values. apply Forall_map.
    eapply Forall_impl; [|exact Hall].
    intros y [E|[q [E Hq]]]; subst y; [apply Qle_refl | exact Hq].
  - intros Hd. apply filled_negative_iff.
    destruct (nonneg_or_negative (filled_values (x :: t))) as [Hall|Hex];
      [|exact Hex].
    apply Hzero in Hall. lra.
Qed.

Lemma max_drawdown_negative_needs_loss_witness :
  exists d,
    max_drawdown [fin 0.02; nan; fin 0] = fin d
    /\ (Forall (fun y => y = nan \/ exists q, y = fin q /\ 0 <= q)
          [fin 0.02; nan; fin 0] -> d == 0)
    /\ (d < 0 -> Exists (fun y => exists q, y = fin q /\ q < 0)
                   [fin 0.02; nan; fin 0]).
Proof.
  apply (max_drawdown_negative_needs_loss [fin 0.02; nan; fin 0]).
  discriminate.
Defined.

Lemma Qrun_app (a b : list Q) (s : Q) :
  exists s', Qrun s (a ++ b) = (Qrun s a ++ Qrun s' b)%list.
Proof.
  revert s. induction a as [|q t IH]; intros s; simpl.
  - exists s. reflexivity.
  - destruct (IH (s + q)) as [s' E]. exists s'. now rewrite E.
Qed.

Lemma Qdrawdowns_app (a b : list Q) (m : Q) :
  exists m', Qdrawdowns m (a ++ b) = (Qdrawdowns m a ++ Qdrawdowns m' b)%list.
Proof.
  revert m. induction a as [|c t IH]; intros m; simpl.
  - exists m. reflexivity.
  - destruct (IH (if Qle_bool m c then c else m)) as [m' E].
    exists m'. now rewrite E.
Qed.

Lemma Qlevels_app (a b : list Q) :
  a <> [] -> exists l, Qlevels (a ++ b) = (Qlevels a ++ l)%list.
Proof.
  destruct a as [|q t]; [congruence|]. intros _.
  cbn [app Qlevels]. destruct (Qrun_app t b q) as [s' E].
  exists (map (fun s => s + 1) (Qrun s' b)).
  rewrite E, map_app. reflexivity.
Qed.

(** X5.  Observing more periods never makes the drawdown shallower: for a
    non-empty series, [max_drawdown] of the series extended by further
    returns is at most [max_drawdown] of the series. *)
Theorem max_drawdown_extension :
  forall returns more : list float,
    returns <> [] ->
    exists d d',
      max_drawdown returns = fin d
      /\ max_drawdown (returns ++ more) = fin d'
      /\ d' <= d.
Proof.
  intros r more Hne. destruct r as [|x t]; [congruence|].
  change ((x :: t) ++ more)%list with (x :: (t ++ more)%list).
  rewrite !max_drawdown_eval.
  change (x :: (t ++ more)%list) with ((x :: t) ++ more)%list.
  unfold filled_values at 2. rewrite map_app.
  fold (filled_values (x :: t)). fold (filled_values more).
  destruct (Qlevels_app (filled_values (x :: t)) (filled_values more)) as [l El];
    [discriminate|].
  rewrite El.
  destruct (Qdrawdowns_app (Qlevels (filled_values (x :: t))) l 1) as [m' Em].
  rewrite Em, Qmin_fold_app.
  eexists. eexists. split; [reflexivity|]. split; [reflexivity|].
  apply Qmin_fold_le.
Qed.

Lemma max_drawdown_extension_witness :
  exists d d',
    max_drawdown [fin 0.02; fin (-0.01)] = fin d
    /\ max_drawdown ([fin 0.02; fin (-0.01)] ++ [fin (-0.03); fin 0.01]) = fin d'
    /\ d' <= d.
Proof.
  apply (max_drawdown_extension [fin 0.02; fin (-0.01)] [fin (-0.03); fin 0.01]).
  discriminate.
Defined.

(** ** Omega ratio: sign *)

Lemma gains_above_nonneg (l : list Q) : 0 <= gains_above l.
Proof.
  unfold gains_above, Qsum.
  induction l as [|x t IH]; simpl; [lra|].
  destruct (Qlt_bool 0 x) eqn:E; simpl; [|exact IH].
  apply Qlt_bool_iff in E. lra.
Qed.

Lemma omega_split_nonneg (returns : list float) (risk_free threshold v : Q) :
  omega_split returns risk_free threshold = fin v -> 0 <= v.
Proof.
  intros H.
  destruct (omega_split_ratio returns risk_free threshold) as [Hnan Hratio].
  cbv zeta in Hnan, Hratio.
  set (adj := adjusted_returns returns risk_free threshold) in *.
  destruct (Qeq_dec (losses_below adj) 0) as [H0|Hn].
  - rewrite (Hnan H0) in H. discriminate H.
  - destruct (Hratio Hn) as [v' [Ev Hv]]. rewrite Ev in H.
    injection H as H. subst v'.
    pose proof (gains_above_nonneg adj) as Hg.
    pose proof (losses_below_nonpos adj) as Hl.
    rewrite Hv. apply Qle_shift_div_l; lra.
Qed.

(** X7.  The Omega ratio is never negative: whenever [omega_ratio] returns a
    number, that number is at least 0. *)
Theorem omega_ratio_nonnegative :
  forall (py_pow : Q -> Q -> Q) (returns : list float)
         (risk_free required_return annualization v : Q),
    omega_ratio py_pow returns risk_free required_return annualization
    = Ok (fin v) ->
    0 <= v.
Proof.
  intros py_pow r rf rr ann v. unfold omega_ratio.
  destruct (List.length r <? 2)%nat; [discriminate|].
  destruct (Qeq_bool ann 1).
  - intros H. injection H as H. eapply omega_split_nonneg. exact H.
  - destruct (Qle_bool rr (-1)); [discriminate|].
    destruct (Qeq_bool ann 0); [discriminate|].
    intros H. injection H as H. eapply omega_split_nonneg. exact H.
Qed.

Lemma omega_ratio_nonnegative_witness : 0 <= 0.02 / (-1 * (0 + (-0.01))).
Proof.
  apply (omega_ratio_nonnegative (fun x _ => x)
           [fin 0.02; fin (-0.01)] 0 0 1 (0.02 / (-1 * (0 + (-0.01))))).
  vm_compute. reflexivity.
Defined.

(** ** Sharpe ratio: only the numbers count *)

Lemma valid_filter_notnan (l : list float) :
  valid (filter (fun x => negb (isnan x)) l) = valid l.
Proof.
  induction l as [|[|q] t IH]; simpl; [reflexivity | exact IH | now rewrite IH].
Qed.

Lemma filter_notnan_idempotent (l : list float) :
  filter (fun x => negb (isnan x)) (filter (fun x => negb (isnan x)) l)
  = filter (fun x => negb (isnan x)) l.
Proof.
  induction l as [|[|q] t IH]; simpl; [reflexivity | exact IH | now rewrite IH].
Qed.

Lemma filter_notnan_shift (l : list float) (c : Q) :
  filter (fun x => negb (isnan x))
         (map (fun x => fsub x (fin c)) (filter (fun x => negb (isnan x)) l))
  = filter (fun x => negb (isnan x)) (map (fun x => fsub x (fin c)) l).
Proof.
  induction l as [|[|q] t IH]; simpl; [reflexivity | exact IH | now rewrite IH].
Qed.

Lemma valid_shift_length (l : list float) (c : Q) :
  List.length (valid (map (fun x => fsub x (fin c)) l)) = List.length (valid l).
Proof.
  induction l as [|[|q] t IH]; simpl; [reflexivity | exact IH | now rewrite IH].
Qed.

Lemma filter_notnan_length (l : list float) :
  List.length (filter (fun x => negb (isnan x)) l) = List.length (valid l).
Proof.
  induction l as [|[|q] t IH]; simpl; [reflexivity | exact IH | now rewrite IH].
Qed.

Lemma valid_length_le (l : list float) :
  (List.length (valid l) <= List.length l)%nat.
Proof.
  induction l as [|[|q] t IH]; simpl; lia.
Qed.

(** X8.  [sharpe_ratio] looks only at the returns that are numbers: once
    the annualization factor resolves, it is NaN when fewer than two
    returns are numbers, and dropping the NaN entries of a series that
    keeps two or more numbers does not change the result. *)
Theorem sharpe_ratio_counts_numbers_only :
  forall (np_sqrt : Q -> float) (returns : list float) (risk_free : Q)
         (period : string) (annualization : option Q),
    (forall f,
        annualization_factor period annualization = Ok f ->
        (List.length (valid returns) < 2)%nat ->
        sharpe_ratio np_sqrt returns risk_free period annualization = Ok nan)
    /\ ((2 <= List.length (valid returns))%nat ->
        sharpe_ratio np_sqrt (filter (fun x => negb (isnan x)) returns)
          risk_free period annualization
        = sharpe_ratio np_sqrt returns risk_free period annualization).
Proof.
  intros np_sqrt r rf p a. split.
  - intros f Hf Hfew. unfold sharpe_ratio.
    destruct (List.length r <? 2)%nat; [reflexivity|].
    rewrite Hf. cbn [bind _adjust_returns].
    assert (Hstd : forall adj,
               List.length (valid adj) = List.length (valid r) ->
               nanstd np_sqrt (filter (fun x => negb (isnan x)) adj) 1 = nan).
    { intros adj E. unfold nanstd. rewrite valid_filter_notnan, E.
      assert (L : (List.length (valid r) <=? 1)%nat = true)
        by (apply Nat.leb_le; lia).
      rewrite L. reflexivity. }
    destruct (Qeq_bool rf 0); cbn [bind].
    + rewrite (Hstd r eq_refl). cbn [feqb].
      destruct (nanmean (filter (fun x => negb (isnan x)) r)); reflexivity.
    + rewrite (Hstd _ (valid_shift_length r rf)). cbn [feqb].
      destruct (nanmean _); reflexivity.
  - intros Hmany. unfold sharpe_ratio.
    assert (G1 : (List.length (filter (fun x => negb (isnan x)) r) <? 2)%nat = false).
    { apply Nat.ltb_ge. rewrite filter_notnan_length. exact Hmany. }
    assert (G2 : (List.length r <? 2)%nat = false).
    { apply Nat.ltb_ge. pose proof (valid_length_le r). lia. }
    rewrite G1, G2.
    destruct (annualization_factor p a) as [f|e]; [|reflexivity].
    cbn [bind _adjust_returns].
    destruct (Qeq_bool rf 0); cbn [bind].
    + rewrite filter_notnan_idempotent. reflexivity.
    + rewrite filter_notnan_shift. reflexivity.
Qed.

Lemma sharpe_ratio_counts_numbers_only_witness :
  sharpe_ratio sqrt_rational [fin 0.01; nan; nan] 0 "daily" None = Ok nan
  /\ sharpe_ratio sqrt_rational
       (filter (fun x => negb (isnan x)) [fin 3; nan; fin 1; fin 2]) 0 "yearly" None
     = sharpe_ratio sqrt_rational [fin 3; nan; fin 1; fin 2] 0 "yearly" None.
Proof.
  split.
  - apply (proj1 (sharpe_ratio_counts_numbers_only sqrt_rational
                    [fin 0.01; nan; nan] 0 "daily" None) 252 eq_refl).
    apply le_n.
  - apply (proj2 (sharpe_ratio_counts_numbers_only sqrt_rational
                    [fin 3; nan; fin 1; fin 2] 0 "yearly" None)).
    apply le_S, le_n.
Defined.

(** ** Beta: what it does not depend on *)

Lemma beta_aligned_value (r f : list float) (rf : Q) :
  List.length r = List.length f ->
  (beta_aligned r f rf = Ok nan
   /\ ((List.length (joint_valid r f rf) < 2)%nat
       \/ Qabs (population_var (map snd (joint_valid r f rf))) < 1e-30))
  \/ (exists b,
        beta_aligned r f rf = Ok (fin b)
        /\ b == population_cov (joint_valid r f rf)
                / population_var (map snd (joint_valid r f rf))
        /\ (2 <= List.length (joint_valid r f rf))%nat
        /\ 1e-30 <= Qabs (population_var (map snd (joint_valid r f rf)))).
Proof.
  intros Hlen.
  destruct (beta_aligned_joint r f rf Hlen) as [J [HJ Hobs]].
  set (obs := joint_valid r f rf) in *.
  pose proof (joint_valid_length r f rf) as Hle. fold obs in Hle.
  pose proof (Forall2_length Hobs) as HlenJ.
  destruct (np_cov_entries J) as [Hc Hv].
  rewrite (obs_eq_snd _ _ Hobs) in Hv.
  unfold beta_aligned.
  destruct ((List.length r <? 2)%nat || (List.length f <? 2)%nat) eqn:G.
  - left. split; [reflexivity|]. left.
    apply orb_true_iff in G. rewrite <- Hlen in G.
    destruct G as [G|G]; apply Nat.ltb_lt in G; lia.
  - revert HJ. destruct (_adjust_returns r (Scalar rf)) as [adj|e]; cbn [bind];
      [|discriminate].
    destruct (np_vstack adj f) as [joint|e]; cbn [bind]; [|discriminate].
    intros HJ. injection HJ as HJ. rewrite HJ, HlenJ, Hc, Hv.
    destruct (List.length obs <? 2)%nat eqn:G2.
    + left. split; [reflexivity|]. left. apply Nat.ltb_lt. exact G2.
    + apply Nat.ltb_ge in G2.
      destruct (Qlt_bool (Qabs (population_var (map snd obs))) 1e-30) eqn:G3.
      * left. split; [reflexivity|]. right. apply Qlt_bool_iff. exact G3.
      * right. eexists. split; [reflexivity|].
        split; [rewrite (population_cov_obs_eq _ _ Hobs); reflexivity|].
        split; [exact G2 | apply Qlt_bool_false_iff; exact G3].
Qed.

Lemma joint_valid_pairs (r f : list float) (rf : Q) :
  joint_valid r f rf = map (fun p => (fst p - rf, snd p)) (joint_pairs r f).
Proof.
  revert f. induction r as [|[|x] t IH]; intros [|[|y] u]; simpl;
    try reflexivity; try apply IH.
  now rewrite IH.
Qed.

Lemma Qsum_shift (l : list Q) (c : Q) :
  Qsum (map (fun x => x - c) l)
  == Qsum l - inject_Z (Z.of_nat (List.length l)) * c.
Proof.
  induction l as [|x t IH].
  - unfold Qsum. cbn [map List.length fold_right].
    change (inject_Z (Z.of_nat 0)) with 0. lra.
  - cbn [map List.length]. unfold Qsum in *. cbn [fold_right].
    rewrite IH, inject_Z_succ. lra.
Qed.

Lemma inject_Z_length_pos {A : Type} (l : list A) :
  l <> [] -> 0 < inject_Z (Z.of_nat (List.length l)).
Proof.
  intros H. destruct l as [|a t]; [congruence|].
  change 0 with (inject_Z 0). rewrite <- Zlt_Qlt. simpl List.length. lia.
Qed.

Lemma Qmean_shift (l : list Q) (c : Q) :
  l <> [] -> Qmean (map (fun x => x - c) l) == Qmean l - c.
Proof.
  intros H. unfold Qmean. rewrite Qsum_shift, length_map.
  pose proof (inject_Z_length_pos l H) as Hn.
  field. lra.
Qed.

(** Covariance does not see a constant shift of the first coordinate. *)
Lemma population_cov_shift (J : list (Q * Q)) (c : Q) :
  population_cov (map (fun p => (fst p - c, snd p)) J) == population_cov J.
Proof.
  destruct J as [|p0 J0]; [reflexivity|].
  set (J := p0 :: J0). unfold population_cov.
  apply Qmean_Forall2.
  assert (Hm : Qmean (map fst (map (fun p => (fst p - c, snd p)) J))
               == Qmean (map fst J) - c).
  { rewrite map_map. cbn [fst].
    rewrite <- (map_map fst (fun x => x - c)).
    apply Qmean_shift. discriminate. }
  assert (Hs : map snd (map (fun p => (fst p - c, snd p)) J) = map snd J).
  { rewrite map_map. reflexivity. }
  rewrite Hs, map_map.
  apply (Forall2_map2 eq Qeq).
  - intros a a' E. subst a'. cbn [fst snd]. rewrite Hm. ring.
  - clear. induction J as [|p K IH]; constructor; [reflexivity | exact IH].
Qed.

Lemma joint_pairs_snd (r f : list float) (rf : Q) :
  map snd (joint_valid r f rf) = map snd (joint_pairs r f).
Proof. rewrite joint_valid_pairs, map_map. reflexivity. Qed.

Lemma joint_pairs_length (r f : list float) (rf : Q) :
  List.length (joint_valid r f rf) = List.length (joint_pairs r f).
Proof. rewrite joint_valid_pairs, length_map. reflexivity. Qed.

Lemma joint_valid_cov (r f : list float) (rf : Q) :
  population_cov (joint_valid r f rf) == population_cov (joint_pairs r f).
Proof. rewrite joint_valid_pairs. apply population_cov_shift. Qed.

(** X9.  Beta does not depend on the risk-free rate: for two series of the
    same length, [beta_aligned] with any two constant risk-free rates is
    NaN for both or the same number for both. *)
Theorem beta_aligned_ignores_risk_free :
  forall (returns factor_returns : list float) (risk_free risk_free' : Q),
    List.length returns = List.length factor_returns ->
    exists b b',
      beta_aligned returns factor_returns risk_free = Ok b
      /\ beta_aligned returns factor_returns risk_free' = Ok b'
      /\ feq b b'.
Proof.
  intros r f rf rf' Hlen.
  destruct (beta_aligned_value r f rf Hlen) as [[E1 H1]|[b1 [E1 [Hb1 [Hn1 Hv1]]]]];
  destruct (beta_aligned_value r f rf' Hlen) as [[E2 H2]|[b2 [E2 [Hb2 [Hn2 Hv2]]]]];
    rewrite ?joint_pairs_snd, ?joint_pairs_length, ?joint_valid_cov in *.
  - exists nan, nan. repeat split; assumption.
  - exfalso. destruct H1 as [H1|H1]; [lia | lra].
  - exfalso. destruct H2 as [H2|H2]; [lia | lra].
  - exists (fin b1), (fin b2). split; [exact E1|]. split; [exact E2|].
    cbn [feq]. rewrite Hb1, Hb2. reflexivity.
Qed.

Lemma beta_aligned_ignores_risk_free_witness :
  exists b b',
    beta_aligned [fin 0.1; fin 0.2; nan; fin 0.4] [fin 0.2; fin 0.4; fin 1; fin 0.9] 0
    = Ok b
    /\ beta_aligned [fin 0.1; fin 0.2; nan; fin 0.4] [fin 0.2; fin 0.4; fin 1; fin 0.9]
         0.03 = Ok b'
    /\ feq b b'.
Proof.
  apply (beta_aligned_ignores_risk_free
           [fin 0.1; fin 0.2; nan; fin 0.4] [fin 0.2; fin 0.4; fin 1; fin 0.9]
           0 0.03).
  reflexivity.
Defined.

(** ** Beta of a series against itself; mismatched lengths *)

Lemma joint_pairs_self (r : list float) :
  joint_pairs r r = map (fun x => (x, x)) (valid r).
Proof.
  induction r as [|[|x] t IH]; simpl; [reflexivity | exact IH | now rewrite IH].
Qed.

Lemma population_cov_diagonal (v : list Q) :
  population_cov (map (fun x => (x, x)) v) = population_var v.
Proof.
  unfold population_cov, population_var.
  assert (E1 : map fst (map (fun x : Q => (x, x)) v) = v)
    by (rewrite map_map; apply map_id).
  assert (E2 : map snd (map (fun x : Q => (x, x)) v) = v)
    by (rewrite map_map; apply map_id).
  rewrite E1, E2, map_map. reflexivity.
Qed.

Lemma Qabs_lower_nonzero (x : Q) : 1e-30 <= Qabs x -> ~ x == 0.
Proof.
  intros H E. rewrite E in H. vm_compute in H. apply H. reflexivity.
Qed.

Lemma beta_aligned_self (r : list float) (rf : Q) :
  (2 <= List.length (valid r))%nat ->
  1e-30 <= Qabs (population_var (valid r)) ->
  exists b, beta_aligned r r rf = Ok (fin b) /\ b == 1.
Proof.
  intros Hn Hv.
  assert (Es : map snd (joint_valid r r rf) = valid r).
  { rewrite joint_pairs_snd, joint_pairs_self, map_map. apply map_id. }
  assert (El : List.length (joint_valid r r rf) = List.length (valid r)).
  { rewrite joint_pairs_length, joint_pairs_self, length_map. reflexivity. }
  destruct (beta_aligned_value r r rf eq_refl) as [[_ H]|[b [E [Hb _]]]].
  - exfalso. rewrite Es, El in H. destruct H as [H|H]; [lia | lra].
  - exists b. split; [exact E|].
    rewrite Hb, Es, joint_valid_cov, joint_pairs_self, population_cov_diagonal.
    field. apply Qabs_lower_nonzero. exact Hv.
Qed.

(** X10.  The beta of a series against itself is 1, for every risk-free
    rate, as soon as the series holds two numbers and the variance of its
    numbers is not below 1e-30. *)
Theorem beta_aligned_self_is_one :
  forall (returns : list float) (risk_free : Q),
    (2 <= List.length (valid returns))%nat ->
    1e-30 <= Qabs (population_var (valid returns)) ->
    exists b, beta_aligned returns returns risk_free = Ok (fin b) /\ b == 1.
Proof.
  intros r rf. apply beta_aligned_self.
Qed.

Lemma beta_aligned_self_is_one_witness :
  exists b,
    beta_aligned [fin 0.1; nan; fin 0.3; fin (-0.2)]
                 [fin 0.1; nan; fin 0.3; fin (-0.2)] 0.01 = Ok (fin b)
    /\ b == 1.
Proof.
  apply (beta_aligned_self_is_one [fin 0.1; nan; fin 0.3; fin (-0.2)] 0.01).
  - apply le_S, le_n.
  - apply Qle_bool_iff. vm_compute. reflexivity.
Defined.

(** X11.  [beta_aligned] tests the lengths before it stacks the series: a
    series shorter than 2 gives NaN even against a series of another
    length; two series of 2 or more returns raise a [ValueError] exactly
    when their lengths differ. *)
Theorem beta_aligned_length_mismatch :
  forall (returns factor_returns : list float) (risk_free : Q),
    ((List.length returns < 2)%nat \/ (List.length factor_returns < 2)%nat ->
     beta_aligned returns factor_returns risk_free = Ok nan)
    /\ ((2 <= List.length returns)%nat ->
        (2 <= List.length factor_returns)%nat ->
        List.length returns <> List.length factor_returns ->
        exists msg,
          beta_aligned returns factor_returns risk_free = Raise (ValueError msg))
    /\ (forall e,
          beta_aligned returns factor_returns risk_free = Raise e ->
          (2 <= List.length returns)%nat
          /\ (2 <= List.length factor_returns)%nat
          /\ List.length returns <> List.length factor_returns).
Proof.
  intros r f rf. unfold beta_aligned.
  assert (Hadj : exists adj, _adjust_returns r (Scalar rf) = Ok adj
                             /\ List.length adj = List.length r).
  { cbn [_adjust_returns]. destruct (Qeq_bool rf 0); eexists; split;
      try reflexivity. apply length_map. }
  destruct Hadj as [adj [Hadj Hl]]. rewrite Hadj. cbn [bind].
  unfold np_vstack. rewrite Hl.
  split; [|split].
  - intros H.
    assert (G : (List.length r <? 2)%nat || (List.length f <? 2)%nat = true).
    { apply orb_true_iff. destruct H as [H|H]; [left|right];
        apply Nat.ltb_lt; exact H. }
    rewrite G. reflexivity.
  - intros H1 H2 Hne.
    assert (G : (List.length r <? 2)%nat || (List.length f <? 2)%nat = false).
    { apply orb_false_iff. split; apply Nat.ltb_ge; assumption. }
    rewrite G. apply Nat.eqb_neq in Hne. rewrite Hne. cbn [bind].
    eexists. reflexivity.
  - intros e.
    destruct ((List.length r <? 2)%nat || (List.length f <? 2)%nat) eqn:G;
      [discriminate|].
    apply orb_false_iff in G. destruct G as [G1 G2].
    apply Nat.ltb_ge in G1, G2.
    destruct (Nat.eqb (List.length r) (List.length f)) eqn:E; cbn [bind].
    + destruct (List.length (drop_nan_columns (combine adj f)) <? 2)%nat;
        [discriminate|].
      destruct (Qlt_bool _ _); discriminate.
    + intros _. apply Nat.eqb_neq in E. repeat split; assumption.
Qed.

Lemma beta_aligned_length_mismatch_witness :
  beta_aligned [fin 0.1] [fin 0.1; fin 0.2; fin 0.3] 0 = Ok nan
  /\ exists msg,
       beta_aligned [fin 0.1; fin 0.2] [fin 0.1; fin 0.2; fin 0.3] 0
       = Raise (ValueError msg).
Proof.
  split.
  - apply (proj1 (beta_aligned_length_mismatch [fin 0.1]
                    [fin 0.1; fin 0.2; fin 0.3] 0)).
    left. apply le_n.
  - apply (proj1 (proj2 (beta_aligned_length_mismatch [fin 0.1; fin 0.2]
                           [fin 0.1; fin 0.2; fin 0.3] 0))).
    + apply le_n.
    + apply le_S, le_n.
    + discriminate.
Defined.

(** ** Alpha: the regression identity *)

Lemma adjust_returns_fin (xs : list Q) (rf : Q) :
  exists A,
    _adjust_returns (map fin xs) (Scalar rf) = Ok (map fin A)
    /\ Forall2 Qeq A (map (fun x => x - rf) xs).
Proof.
  cbn [_adjust_returns]. destruct (Qeq_bool rf 0) eqn:E.
  - exists xs. split; [reflexivity|]. apply Qeq_bool_eq in E.
    induction xs as [|x t IH]; simpl; constructor; [lra | exact IH].
  - exists (map (fun x => x - rf) xs). split.
    + rewrite !map_map. reflexivity.
    + induction xs as [|x t IH]; simpl; constructor; [reflexivity | exact IH].
Qed.

Lemma map2_fsub_fin (A B : list Q) :
  map2 fsub (map fin A) (map fin B)
  = map fin (map (fun p => fst p - snd p) (combine A B)).
Proof.
  revert B. induction A as [|a t IH]; intros [|b u]; simpl; try reflexivity.
  now rewrite IH.
Qed.

Lemma Qsum_sub_scaled (A B : list Q) (b : Q) :
  List.length A = List.length B ->
  Qsum (map (fun p => fst p - snd p) (combine A (map (Qmult b) B)))
  == Qsum A - b * Qsum B.
Proof.
  revert B. induction A as [|a t IH]; intros [|y u] H; try discriminate H.
  - unfold Qsum. simpl. lra.
  - injection H as H. cbn [map combine]. unfold Qsum in *. cbn [fold_right fst snd].
    rewrite (IH u H). lra.
Qed.

Lemma alpha_aligned_given_beta (xs ys : list Q) (rf : Q) (period : string)
      (annualization : option Q) (f b : Q) :
  List.length xs = List.length ys ->
  (2 <= List.length xs)%nat ->
  annualization_factor period annualization = Ok f ->
  exists v,
    alpha_aligned (map fin xs) (map fin ys) rf period annualization (Some (fin b))
    = Ok (fin v)
    /\ v == ((Qmean xs - rf) - b * (Qmean ys - rf)) * f.
Proof.
  intros Hlen Hn Hf. unfold alpha_aligned.
  assert (G : (List.length (map fin xs) <? 2)%nat = false)
    by (apply Nat.ltb_ge; rewrite length_map; exact Hn).
  rewrite G, Hf. cbn [bind].
  destruct (adjust_returns_fin xs rf) as [A [EA HA]].
  destruct (adjust_returns_fin ys rf) as [B [EB HB]].
  rewrite EA. cbn [bind]. rewrite EB. cbn [bind].
  pose proof (Forall2_length HA) as LA. pose proof (Forall2_length HB) as LB.
  rewrite length_map in LA, LB.
  assert (Hscaled : map (fun y => fmul (fin b) y) (map fin B)
                    = map fin (map (Qmult b) B)).
  { rewrite !map_map. reflexivity. }
  rewrite Hscaled, np_sub_same_length
    by (rewrite !length_map; congruence).
  cbn [bind]. rewrite map2_fsub_fin. unfold nanmean. rewrite valid_map_fin.
  set (Z := map (fun p => fst p - snd p) (combine A (map (Qmult b) B))).
  assert (LZ : List.length Z = List.length xs).
  { unfold Z. rewrite length_map, length_combine, length_map.
    rewrite LA, LB, <- Hlen. apply Nat.min_id. }
  destruct Z as [|z0 Z0] eqn:EZ.
  { exfalso. simpl in LZ. lia. }
  rewrite <- EZ. cbn [fmul]. eexists. split; [reflexivity|].
  assert (HsumZ : Qsum Z == Qsum A - b * Qsum B).
  { rewrite EZ. subst Z. rewrite <- EZ. apply Qsum_sub_scaled. congruence. }
  assert (HsA : Qsum A == Qsum xs - inject_Z (Z.of_nat (List.length xs)) * rf).
  { rewrite (Qsum_Forall2 _ _ HA). apply Qsum_shift. }
  assert (HsB : Qsum B == Qsum ys - inject_Z (Z.of_nat (List.length ys)) * rf).
  { rewrite (Qsum_Forall2 _ _ HB). apply Qsum_shift. }
  assert (Hpos : 0 < inject_Z (Z.of_nat (List.length xs))).
  { apply inject_Z_length_pos. destruct xs; [simpl in Hn; lia | discriminate]. }
  unfold Qmean. rewrite <- EZ in LZ. rewrite LZ, HsumZ, HsA, HsB, <- Hlen.
  field. lra.
Qed.

(** X12.  For two series without NaN and of the same length, what
    [alpha_beta_aligned] returns satisfies the regression identity: alpha
    is the annualization factor times
    [(mean(returns) - risk_free) - beta * (mean(factor_returns) - risk_free)]. *)
Theorem alpha_beta_aligned_regression_identity :
  forall (xs ys : list Q) (risk_free : Q) (period : string)
         (annualization : option Q) (f alpha beta : Q),
    List.length xs = List.length ys ->
    annualization_factor period annualization = Ok f ->
    alpha_beta_aligned (map fin xs) (map fin ys) risk_free period annualization
    = Ok (fin alpha, fin beta) ->
    alpha == ((Qmean xs - risk_free) - beta * (Qmean ys - risk_free)) * f.
Proof.
  intros xs ys rf p a f al be Hlen Hf. unfold alpha_beta_aligned.
  destruct (beta_aligned (map fin xs) (map fin ys) rf) as [b|e] eqn:Eb;
    cbn [bind]; [|discriminate].
  destruct (le_lt_dec 2 (List.length xs)) as [Hn|Hn].
  - destruct b as [|b].
    + destruct (alpha_aligned _ _ _ _ _ _); cbn [bind]; intros H;
        [injection H as _ H; discriminate H | discriminate H].
    + destruct (alpha_aligned_given_beta xs ys rf p a f b Hlen Hn Hf)
        as [v [Ev Hv]].
      rewrite Ev. cbn [bind]. intros H. injection H as H1 H2. subst. exact Hv.
  - unfold beta_aligned in Eb.
    assert (G : (List.length (map fin xs) <? 2)%nat = true)
      by (apply Nat.ltb_lt; rewrite length_map; exact Hn).
    rewrite G in Eb. cbn [orb] in Eb. injection Eb as Eb. subst b.
    unfold alpha_aligned. rewrite G. cbn [bind]. intros H. discriminate H.
Qed.

Lemma alpha_beta_aligned_regression_identity_witness :
  exists alpha beta,
    alpha_beta_aligned (map fin [0.1; 0.2; 0.4]) (map fin [0.2; 0.1; 0.3]) 0
      "monthly" None = Ok (fin alpha, fin beta)
    /\ alpha == ((Qmean [0.1; 0.2; 0.4] - 0) - beta * (Qmean [0.2; 0.1; 0.3] - 0)) * 12.
Proof.
  eexists. eexists. split.
  - vm_compute. reflexivity.
  - apply (alpha_beta_aligned_regression_identity [0.1; 0.2; 0.4] [0.2; 0.1; 0.3]
             0 "monthly" None 12 _ _ eq_refl eq_refl).
    vm_compute. reflexivity.
Defined.

(** ** Alpha and beta on an exact linear relation *)

Lemma joint_pairs_fin (xs ys : list Q) :
  joint_pairs (map fin xs) (map fin ys) = combine xs ys.
Proof.
  revert ys. induction xs as [|x t IH]; intros [|y u]; simpl; try reflexivity.
  now rewrite IH.
Qed.

Lemma combine_map_self (g : Q -> Q) (ys : list Q) :
  combine (map g ys) ys = map (fun y => (g y, y)) ys.
Proof. induction ys as [|y t IH]; simpl; [reflexivity | now rewrite IH]. Qed.

Lemma Qsum_affine (l : list Q) (c k : Q) :
  Qsum (map (fun y => c + k * y) l)
  == inject_Z (Z.of_nat (List.length l)) * c + k * Qsum l.
Proof.
  induction l as [|x t IH].
  - unfold Qsum. cbn [map List.length fold_right].
    change (inject_Z (Z.of_nat 0)) with 0. lra.
  - cbn [map List.length]. unfold Qsum in *. cbn [fold_right].
    rewrite IH, inject_Z_succ. lra.
Qed.

Lemma Qmean_affine (l : list Q) (c k : Q) :
  l <> [] -> Qmean (map (fun y => c + k * y) l) == c + k * Qmean l.
Proof.
  intros H. unfold Qmean. rewrite Qsum_affine, length_map.
  pose proof (inject_Z_length_pos l H) as Hn. field. lra.
Qed.

Lemma Qsum_scale {A : Type} (g : A -> Q) (l : list A) (k : Q) :
  Qsum (map (fun y => k * g y) l) == k * Qsum (map g l).
Proof.
  induction l as [|x t IH]; unfold Qsum in *; cbn [map fold_right]; [lra|].
  rewrite IH. lra.
Qed.

Lemma Qmean_scale {A : Type} (g : A -> Q) (l : list A) (k : Q) :
  Qmean (map (fun y => k * g y) l) == k * Qmean (map g l).
Proof.
  unfold Qmean. rewrite Qsum_scale, !length_map. unfold Qdiv. ring.
Qed.

Lemma population_cov_line (ys : list Q) (c k : Q) :
  ys <> [] ->
  population_cov (map (fun y => (c + k * y, y)) ys) == k * population_var ys.
Proof.
  intros Hne. unfold population_cov, population_var.
  assert (E1 : map fst (map (fun y => (c + k * y, y)) ys)
               = map (fun y => c + k * y) ys) by (rewrite map_map; reflexivity).
  assert (E2 : map snd (map (fun y => (c + k * y, y)) ys) = ys)
    by (rewrite map_map; apply map_id).
  rewrite E1, E2, map_map. cbn [fst snd].
  pose proof (Qmean_affine ys c k Hne) as Hm.
  rewrite <- (Qmean_scale (fun y => (y - Qmean ys) * (y - Qmean ys)) ys k).
  apply Qmean_Forall2. apply (Forall2_map2 eq Qeq).
  - intros y y' E. subst y'. rewrite Hm. ring.
  - clear. induction ys; constructor; [reflexivity | assumption].
Qed.

(** X13.  On an exact linear relation [returns = c + k * factor_returns]
    (no NaN, two or more periods, factor variance not below 1e-30),
    [alpha_beta_aligned] recovers the line: beta is the slope [k] and alpha
    is the annualization factor times [c - (1 - k) * risk_free]. *)
Theorem alpha_beta_aligned_recovers_line :
  forall (ys : list Q) (c k risk_free : Q) (period : string)
         (annualization : option Q) (f : Q),
    (2 <= List.length ys)%nat ->
    1e-30 <= Qabs (population_var ys) ->
    annualization_factor period annualization = Ok f ->
    exists alpha beta,
      alpha_beta_aligned (map fin (map (fun y => c + k * y) ys)) (map fin ys)
        risk_free period annualization = Ok (fin alpha, fin beta)
      /\ beta == k
      /\ alpha == (c - (1 - k) * risk_free) * f.
Proof.
  intros ys c k rf p a f Hn Hv Hf.
  set (xs := map (fun y => c + k * y) ys).
  assert (Hlen : List.length xs = List.length ys) by apply length_map.
  assert (Hne : ys <> []) by (destruct ys; [simpl in Hn; lia | discriminate]).
  assert (EJ : joint_pairs (map fin xs) (map fin ys)
               = map (fun y => (c + k * y, y)) ys).
  { rewrite joint_pairs_fin. apply combine_map_self. }
  assert (Es : map snd (joint_valid (map fin xs) (map fin ys) rf) = ys).
  { rewrite joint_pairs_snd, EJ, map_map. apply map_id. }
  assert (El : List.length (joint_valid (map fin xs) (map fin ys) rf)
               = List.length ys).
  { rewrite joint_pairs_length, EJ, length_map. reflexivity. }
  assert (Hll : List.length (map fin xs) = List.length (map fin ys))
    by (rewrite !length_map; exact Hlen).
  destruct (beta_aligned_value (map fin xs) (map fin ys) rf Hll)
    as [[_ H]|[b [Eb [Hb _]]]].
  { exfalso. rewrite Es, El in H. destruct H as [H|H]; [lia | lra]. }
  assert (Hbk : b == k).
  { rewrite Hb, Es, joint_valid_cov, EJ, (population_cov_line ys c k Hne).
    field. apply Qabs_lower_nonzero. exact Hv. }
  assert (Hn' : (2 <= List.length xs)%nat) by (rewrite Hlen; exact Hn).
  destruct (alpha_aligned_given_beta xs ys rf p a f b Hlen Hn' Hf) as [v [Ev Hv']].
  exists v, b. unfold alpha_beta_aligned. rewrite Eb. cbn [bind].
  rewrite Ev. cbn [bind]. split; [reflexivity|]. split; [exact Hbk|].
  rewrite Hv', Hbk. unfold xs. rewrite (Qmean_affine ys c k Hne). ring.
Qed.

Lemma alpha_beta_aligned_recovers_line_witness :
  exists alpha beta,
    alpha_beta_aligned (map fin (map (fun y => 0.001 + 2 * y) [0.01; -0.02; 0.03]))
      (map fin [0.01; -0.02; 0.03]) 0 "daily" None = Ok (fin alpha, fin beta)
    /\ beta == 2
    /\ alpha == (0.001 - (1 - 2) * 0) * 252.
Proof.
  apply (alpha_beta_aligned_recovers_line [0.01; -0.02; 0.03] 0.001 2 0
           "daily" None 252).
  - apply le_S, le_n.
  - apply Qle_bool_iff. vm_compute. reflexivity.
  - reflexivity.
Defined.

(** ** Alpha is undefined whenever beta is *)

Lemma valid_all_nan (l : list float) :
  Forall (fun x => x = nan) l -> valid l = [].
Proof.
  induction 1 as [|x t Hx _ IH]; [reflexivity|]. subst x. exact IH.
Qed.

Lemma scaled_by_nan (l : list float) :
  Forall (fun x => x = nan) (map (fun y => fmul nan y) l).
Proof. induction l; simpl; constructor; auto. Qed.

Lemma np_sub_all_nan (l1 l2 s : list float) :
  Forall (fun x => x = nan) l2 ->
  np_sub l1 l2 = Ok s -> Forall (fun x => x = nan) s.
Proof.
  intros Hnan. unfold np_sub.
  assert (H2 : forall l, Forall (fun x => x = nan) (map2 fsub l l2)).
  { clear - Hnan. induction Hnan as [|y u Hy _ IH]; intros [|x t]; simpl;
      try constructor.
    - subst y. destruct x; reflexivity.
    - apply IH. }
  assert (H1 : forall x, Forall (fun z => z = nan) (map (fun y => fsub x y) l2)).
  { clear - Hnan. intros x. induction Hnan as [|y u Hy _ IH]; simpl; constructor.
    - subst y. destruct x; reflexivity.
    - exact IH. }
  destruct (Nat.eqb (List.length l1) (List.length l2)).
  - intros E. injection E as E. subst s. apply H2.
  - destruct l1 as [|x [|x' t]].
    + destruct l2 as [|y [|y' u]]; try discriminate.
      intros E. injection E as E. subst s. constructor.
    + intros E. injection E as E. subst s. apply H1.
    + destruct l2 as [|y [|y' u]]; try discriminate.
      intros E. injection E as E. subst s.
      inversion Hnan as [|? ? Hy _]; subst.
      clear. change (Forall (fun z => z = nan)
                      (map (fun z => fsub z nan) (x :: x' :: t))).
      generalize (x :: x' :: t). intros l.
      induction l as [|z l IH]; simpl; [constructor|].
      constructor; [destruct z; reflexivity | exact IH].
Qed.

(** X14.  Alpha is undefined whenever beta is: if [alpha_beta_aligned]
    returns a pair whose beta is NaN, its alpha is NaN too. *)
Theorem alpha_is_nan_when_beta_is :
  forall (returns factor_returns : list float) (risk_free : Q)
         (period : string) (annualization : option Q) (alpha : float),
    alpha_beta_aligned returns factor_returns risk_free period annualization
    = Ok (alpha, nan) ->
    alpha = nan.
Proof.
  intros r f rf p a al. unfold alpha_beta_aligned.
  destruct (beta_aligned r f rf) as [b|e]; cbn [bind]; [|discriminate].
  unfold alpha_aligned.
  destruct (List.length r <? 2)%nat; cbn [bind].
  { intros H. injection H as H _. now subst al. }
  destruct (annualization_factor p a) as [fa|e]; cbn [bind]; [|discriminate].
  destruct (_adjust_returns r (Scalar rf)) as [ar|e]; cbn [bind]; [|discriminate].
  destruct (_adjust_returns f (Scalar rf)) as [af|e]; cbn [bind]; [|discriminate].
  destruct (np_sub ar (map (fun y => fmul b y) af)) as [s|e] eqn:Es; cbn [bind];
    [|discriminate].
  intros H. injection H as H1 H2. subst b al.
  apply np_sub_all_nan in Es; [|apply scaled_by_nan].
  unfold nanmean. rewrite (valid_all_nan _ Es). reflexivity.
Qed.

Lemma alpha_is_nan_when_beta_is_witness :
  fmul (nanmean (map2 fsub [fin 0.01; fin 0.02]
                   (map (fun y => fmul nan y) [fin 0.03; fin 0.03])))
       (fin 252) = nan.
Proof.
  apply (alpha_is_nan_when_beta_is [fin 0.01; fin 0.02] [fin 0.03; fin 0.03] 0
           "daily" None).
  reflexivity.
Defined.

(** ** Conditional value at risk: the partition index *)

Lemma py_int_nonneg (x : Q) : 0 <= x -> py_int x = Qfloor x.
Proof.
  intros H. unfold py_int. apply Qle_bool_iff in H. rewrite H. reflexivity.
Qed.

(** X15.  For a non-empty series and a cutoff between 0 and 1,
    [conditional_value_at_risk] partitions at an index within the bounds
    of the series, [0 <= k <= len - 1], and averages the first [k + 1]
    entries of the partition; with cutoff 0 the index is 0. *)
Theorem conditional_value_at_risk_index_in_bounds :
  forall (np_partition : list float -> Z -> result (list float))
         (returns : list float) (cutoff : Q),
    returns <> [] ->
    0 <= cutoff -> cutoff <= 1 ->
    exists k : Z,
      (0 <= k <= Z.of_nat (List.length returns) - 1)%Z
      /\ (cutoff == 0 -> k = 0%Z)
      /\ conditional_value_at_risk np_partition returns cutoff
         = (part <- np_partition returns k ;;
            Ok (np_mean (firstn (Z.to_nat k + 1) part))).
Proof.
  intros np_partition r c Hne H0 H1.
  set (n1 := (Z.of_nat (List.length r) - 1)%Z).
  assert (Hn1 : (0 <= n1)%Z).
  { unfold n1. destruct r; [congruence | simpl List.length; lia]. }
  assert (Hq : 0 <= inject_Z n1).
  { change 0 with (inject_Z 0). rewrite <- Zle_Qle. exact Hn1. }
  assert (Hx : 0 <= inject_Z n1 * c) by (apply Qmult_le_0_compat; assumption).
  assert (Hx1 : inject_Z n1 * c <= inject_Z n1).
  { setoid_replace (inject_Z n1) with (inject_Z n1 * 1) at 2 by ring.
    apply Qle_minus_iff.
    setoid_replace (inject_Z n1 * 1 + - (inject_Z n1 * c))
      with (inject_Z n1 * (1 - c)) by ring.
    apply Qmult_le_0_compat; [exact Hq | lra]. }
  exists (Qfloor (inject_Z n1 * c)).
  assert (Hk0 : (0 <= Qfloor (inject_Z n1 * c))%Z).
  { change 0%Z with (Qfloor 0). apply Qfloor_resp_le. exact Hx. }
  split; [split|split].
  - exact Hk0.
  - apply Z.le_trans with (Qfloor (inject_Z n1)).
    + apply Qfloor_resp_le. exact Hx1.
    + rewrite Qfloor_Z. apply Z.le_refl.
  - intros Hc. rewrite <- (Qfloor_Z 0). apply Qfloor_comp.
    rewrite Hc. change (inject_Z 0) with 0. ring.
  - unfold conditional_value_at_risk. fold n1. cbv zeta.
    rewrite (py_int_nonneg _ Hx).
    destruct (np_partition r (Qfloor (inject_Z n1 * c))) as [part|e];
      cbn [bind]; [|reflexivity].
    unfold slice_to.
    assert (G : (0 <=? Qfloor (inject_Z n1 * c) + 1)%Z = true)
      by (apply Z.leb_le; lia).
    rewrite G. rewrite Z2Nat.inj_add by lia. reflexivity.
Qed.

Lemma conditional_value_at_risk_index_in_bounds_witness :
  exists k : Z,
    (0 <= k <= Z.of_nat (List.length [fin 0.01; fin (-0.02); fin 0.03]) - 1)%Z
    /\ (0.05 == 0 -> k = 0%Z)
    /\ conditional_value_at_risk (fun l _ => Ok l)
         [fin 0.01; fin (-0.02); fin 0.03] 0.05
       = (part <- (fun l (_ : Z) => Ok l) [fin 0.01; fin (-0.02); fin 0.03] k ;;
          Ok (np_mean (firstn (Z.to_nat k + 1) part))).
Proof.
  apply (conditional_value_at_risk_index_in_bounds (fun l _ => Ok l)
           [fin 0.01; fin (-0.02); fin 0.03] 0.05).
  - discriminate.
  - apply Qle_bool_iff. reflexivity.
  - apply Qle_bool_iff. reflexivity.
Defined.

(** ** Aggregation by period *)

Lemma key_compare_eq (a b : key) : key_compare a b = Eq -> a = b.
Proof.
  revert b. induction a as [|x t IH]; intros [|y u]; simpl; try discriminate.
  - reflexivity.
  - destruct (Z.compare_spec x y) as [E|L|G]; try discriminate.
    intros H. subst y. f_equal. apply IH. exact H.
Qed.

Lemma key_compare_refl (a : key) : key_compare a a = Eq.
Proof.
  induction a as [|x t IH]; simpl; [reflexivity|].
  rewrite Z.compare_refl. exact IH.
Qed.

Lemma key_compare_antisym (a b : key) :
  key_compare b a = CompOpp (key_compare a b).
Proof.
  revert b. induction a as [|x t IH]; intros [|y u]; simpl; try reflexivity.
  rewrite (Z.compare_antisym x y).
  destruct (Z.compare x y); simpl; [apply IH | reflexivity | reflexivity].
Qed.

Lemma key_lt_trans (a b c : key) : key_lt a b -> key_lt b c -> key_lt a c.
Proof.
  unfold key_lt. revert b c.
  induction a as [|x t IH]; intros [|y u] [|z w]; simpl; try discriminate;
    try reflexivity.
  destruct (Z.compare_spec x y) as [E1|L1|G1]; try discriminate;
    destruct (Z.compare_spec y z) as [E2|L2|G2]; try discriminate;
    intros H1 H2; subst.
  - rewrite Z.compare_refl. eapply IH; eassumption.
  - apply Z.compare_lt_iff in L2. rewrite L2. reflexivity.
  - apply Z.compare_lt_iff in L1. rewrite L1. reflexivity.
  - assert (L : (x < z)%Z) by lia. apply Z.compare_lt_iff in L. rewrite L.
    reflexivity.
Qed.

Lemma key_compare_gt_lt (a b : key) : key_compare a b = Gt -> key_lt b a.
Proof.
  intros H. unfold key_lt. rewrite key_compare_antisym, H. reflexivity.
Qed.

Lemma key_lt_irrefl (a : key) : ~ key_lt a a.
Proof. unfold key_lt. rewrite key_compare_refl. discriminate. Qed.

Lemma keys_increasing_cons (k : key) (ks : list key) :
  keys_increasing (k :: ks)
  <-> keys_increasing ks /\ match ks with [] => True | k' :: _ => key_lt k k' end.
Proof.
  destruct ks as [|k' t]; simpl; tauto.
Qed.

Lemma group_insert_head (k : key) (v : float) (g : list (key * list float))
      (b : key) :
  key_lt b k ->
  match map fst g with [] => True | k' :: _ => key_lt b k' end ->
  match map fst (group_insert k v g) with
  | [] => True
  | k' :: _ => key_lt b k'
  end.
Proof.
  intros Hbk Hb. destruct g as [|[k' vs] t]; simpl; [exact Hbk|].
  destruct (key_compare k k'); simpl; assumption.
Qed.

Lemma group_insert_increasing (k : key) (v : float) (g : list (key * list float)) :
  keys_increasing (map fst g) ->
  keys_increasing (map fst (group_insert k v g)).
Proof.
  induction g as [|[k' vs] t IH]; intros H; [exact I|].
  cbn [group_insert]. destruct (key_compare k k') eqn:E.
  - exact H.
  - cbn [map fst]. apply keys_increasing_cons. split; [exact H | exact E].
  - cbn [map fst] in *. apply keys_increasing_cons in H. destruct H as [Ht Hh].
    apply keys_increasing_cons. split; [apply IH; exact Ht|].
    apply group_insert_head; [apply key_compare_gt_lt; exact E | exact Hh].
Qed.

Lemma group_insert_keys (k : key) (v : float) (g : list (key * list float))
      (x : key) :
  In x (map fst (group_insert k v g)) <-> x = k \/ In x (map fst g).
Proof.
  induction g as [|[k' vs] t IH]; cbn [group_insert map fst In].
  - split; [intros [H|[]]; left; now symmetry | intros [H|[]]; left; now symmetry].
  - destruct (key_compare k k') eqn:E; cbn [map fst In].
    + apply key_compare_eq in E. subst k'. split.
      * intros [H|H]; [left; now symmetry | right; right; exact H].
      * intros [H|[H|H]]; [left; now symmetry | left; exact H | right; exact H].
    + split.
      * intros [H|H]; [left; now symmetry | right; exact H].
      * intros [H|H]; [left; now symmetry | right; exact H].
    + rewrite IH. tauto.
Qed.

Lemma groupby_fold_keys (grouping : list (timestamp -> Z))
      (series : list (timestamp * float)) (g0 : list (key * list float)) :
  keys_increasing (map fst g0) ->
  let g := fold_left
             (fun groups row =>
                group_insert (map (fun h => h (fst row)) grouping) (snd row) groups)
             series g0 in
  keys_increasing (map fst g)
  /\ (forall x, In x (map fst g)
                <-> In x (map fst g0)
                    \/ exists row, In row series
                                   /\ map (fun h => h (fst row)) grouping = x).
Proof.
  cbv zeta. revert g0. induction series as [|row t IH]; intros g0 H0.
  - simpl. split; [exact H0|]. intros x. split; [tauto|].
    intros [H|[row [[] _]]]. exact H.
  - cbn [fold_left].
    destruct (IH _ (group_insert_increasing
                      (map (fun h => h (fst row)) grouping) (snd row) g0 H0))
      as [Hinc Hkeys].
    split; [exact Hinc|]. intros x. rewrite Hkeys, group_insert_keys. split.
    + intros [[H|H]|[row' [Hin E]]].
      * right. exists row. split; [left; reflexivity | now symmetry].
      * left. exact H.
      * right. exists row'. split; [right; exact Hin | exact E].
    + intros [H|[row' [[Hin|Hin] E]]].
      * left. right. exact H.
      * subst row'. left. left. now symmetry.
      * right. exists row'. split; assumption.
Qed.

Lemma aggregate_returns_valid (returns : list (timestamp * float))
      (convert_to : string) :
  convert_to = "weekly" \/ convert_to = "monthly" \/ convert_to = "yearly" ->
  aggregate_returns returns convert_to
  = Ok (map (fun g => (fst g, cumulate_returns (snd g)))
            (groupby (grouping_of convert_to) returns)).
Proof.
  intros [H|[H|H]]; subst convert_to; reflexivity.
Qed.

(** X16.  [aggregate_returns] raises a [ValueError] for any label other
    than weekly, monthly and yearly.  For those three, on a non-empty
    series, it returns one row per period present in the index: the keys
    of the result are strictly increasing, and they are exactly the keys
    that the grouping functions give on the index. *)
Theorem aggregate_returns_one_row_per_period :
  forall (returns : list (timestamp * float)) (convert_to : string),
    (convert_to <> "weekly" -> convert_to <> "monthly" ->
     convert_to <> "yearly" ->
     aggregate_returns returns convert_to
     = Raise (ValueError "convert_to must be weekly, monthly or yearly"))
    /\ (convert_to = "weekly" \/ convert_to = "monthly" \/ convert_to = "yearly" ->
        returns <> [] ->
        exists out,
          aggregate_returns returns convert_to = Ok out
          /\ keys_increasing (map fst out)
          /\ (forall k,
                In k (map fst out)
                <-> exists row,
                      In row returns
                      /\ map (fun h => h (fst row)) (grouping_of convert_to) = k)).
Proof.
  intros returns c. split.
  - intros H1 H2 H3. unfold aggregate_returns, WEEKLY, MONTHLY, YEARLY.
    apply String.eqb_neq in H1, H2, H3. rewrite H1, H2, H3. reflexivity.
  - intros Hc _. rewrite (aggregate_returns_valid returns c Hc).
    eexists. split; [reflexivity|].
    rewrite map_map. cbn [fst].
    destruct (groupby_fold_keys (grouping_of c) returns [] I) as [Hinc Hkeys].
    split; [exact Hinc|].
    intros k. unfold groupby. rewrite Hkeys. simpl. tauto.
Qed.

Lemma aggregate_returns_one_row_per_period_witness :
  aggregate_returns [({| year := 2015; month := 7; isoweek := 29 |}, fin 0.01)]
    "daily"
  = Raise (ValueError "convert_to must be weekly, monthly or yearly")
  /\ exists out,
       aggregate_returns
         [({| year := 2015; month := 8; isoweek := 32 |}, fin 0.01);
          ({| year := 2015; month := 7; isoweek := 29 |}, fin 0.02);
          ({| year := 2015; month := 8; isoweek := 33 |}, fin (-0.01))]
         "monthly" = Ok out
       /\ keys_increasing (map fst out)
       /\ (forall k,
             In k (map fst out)
             <-> exists row,
                   In row
                      [({| year := 2015; month := 8; isoweek := 32 |}, fin 0.01);
                       ({| year := 2015; month := 7; isoweek := 29 |}, fin 0.02);
                       ({| year := 2015; month := 8; isoweek := 33 |}, fin (-0.01))]
                   /\ map (fun h => h (fst row)) (grouping_of "monthly") = k).
Proof.
  split.
  - apply (proj1 (aggregate_returns_one_row_per_period
                    [({| year := 2015; month := 7; isoweek := 29 |}, fin 0.01)]
                    "daily")); discriminate.
  - apply (proj2 (aggregate_returns_one_row_per_period
                    [({| year := 2015; month := 8; isoweek := 32 |}, fin 0.01);
                     ({| year := 2015; month := 7; isoweek := 29 |}, fin 0.02);
                     ({| year := 2015; month := 8; isoweek := 33 |}, fin (-0.01))]
                    "monthly")).
    + right. left. reflexivity.
    + discriminate.
Defined.

Lemma valid_app (l l' : list float) :
  valid (l ++ l') = (valid l ++ valid l')%list.
Proof.
  induction l as [|[|q] t IH]; simpl; [reflexivity | exact IH | now rewrite IH].
Qed.

Lemma Qsum_app (l l' : list Q) : Qsum (l ++ l') == Qsum l + Qsum l'.
Proof.
  unfold Qsum. induction l as [|x t IH]; simpl; [lra|]. rewrite IH. lra.
Qed.

Lemma group_total_cons (x : key * list float) (t : list (key * list float)) :
  group_total (x :: t) = Qsum (valid (snd x)) + group_total t.
Proof. reflexivity. Qed.

Lemma Qsum_valid_snoc (vs : list float) (v : float) :
  Qsum (valid (vs ++ [v]))
  == Qsum (valid vs) + match v with nan => 0 | fin q => q end.
Proof.
  rewrite valid_app, Qsum_app. destruct v; unfold Qsum; simpl; lra.
Qed.

Lemma group_insert_total (k : key) (v : float) (g : list (key * list float)) :
  group_total (group_insert k v g)
  == group_total g + match v with nan => 0 | fin q => q end.
Proof.
  induction g as [|[k' vs] t IH]; cbn [group_insert].
  - rewrite group_total_cons. cbn [snd].
    destruct v; unfold group_total, Qsum; simpl; lra.
  - destruct (key_compare k k'); rewrite !group_total_cons; cbn [snd].
    + rewrite Qsum_valid_snoc. lra.
    + destruct v; unfold Qsum at 1; simpl; lra.
    + rewrite IH. lra.
Qed.

Lemma group_insert_nonempty (k : key) (v : float) (g : list (key * list float)) :
  Forall (fun x => snd x <> []) g ->
  Forall (fun x => snd x <> []) (group_insert k v g).
Proof.
  induction g as [|[k' vs] t IH]; intros H; cbn [group_insert].
  - constructor; [discriminate | constructor].
  - inversion H as [|? ? Hh Ht]; subst.
    destruct (key_compare k k').
    + constructor; [|exact Ht]. cbn [snd]. destruct vs; discriminate.
    + constructor; [discriminate | exact H].
    + constructor; [exact Hh | apply IH; exact Ht].
Qed.

Lemma groupby_fold_total (grouping : list (timestamp -> Z))
      (series : list (timestamp * float)) (g0 : list (key * list float)) :
  Forall (fun x => snd x <> []) g0 ->
  let g := fold_left
             (fun groups row =>
                group_insert (map (fun h => h (fst row)) grouping) (snd row) groups)
             series g0 in
  Forall (fun x => snd x <> []) g
  /\ group_total g == group_total g0 + Qsum (filled_values (map snd series)).
Proof.
  cbv zeta. revert g0. induction series as [|row t IH]; intros g0 H0.
  - cbn [fold_left map filled_values]. split; [exact H0|].
    change (Qsum []) with 0. lra.
  - cbn [fold_left].
    destruct (IH _ (group_insert_nonempty
                      (map (fun h => h (fst row)) grouping) (snd row) g0 H0))
      as [Hne Htot].
    split; [exact Hne|]. rewrite Htot, group_insert_total.
    cbn [map filled_values]. fold (filled_values (map snd t)).
    change (Qsum (match snd row with nan => 0 | fin q => q end
                  :: filled_values (map snd t)))
      with (match snd row with nan => 0 | fin q => q end
            + Qsum (filled_values (map snd t))).
    lra.
Qed.

Lemma cumulate_returns_total (g : list float) :
  g <> [] -> exists q, cumulate_returns g = fin q /\ q == Qsum (valid g).
Proof.
  intros Hne. pose proof (cum_returns_final_total g 0 Hne) as H.
  change (Qeq_bool 0 0) with true in H. cbv iota in H.
  assert (E : cum_returns_final g 0 = cumulate_returns g)
    by (destruct g; [congruence | reflexivity]).
  rewrite E in H. destruct (cumulate_returns g) as [|q]; [contradiction|].
  exists q. split; [reflexivity | exact H].
Qed.

Lemma cumulated_groups_total (g : list (key * list float)) :
  Forall (fun x => snd x <> []) g ->
  exists vs,
    map snd (map (fun x => (fst x, cumulate_returns (snd x))) g) = map fin vs
    /\ Qsum vs == group_total g.
Proof.
  unfold group_total. induction 1 as [|x t Hx _ [vs [E Hs]]].
  - exists []. split; reflexivity.
  - destruct (cumulate_returns_total (snd x) Hx) as [q [Eq Hq]].
    exists (q :: vs). split.
    + cbn [map snd]. rewrite Eq, E. reflexivity.
    + cbn [map]. unfold Qsum in *. cbn [fold_right]. rewrite Hs, Hq. reflexivity.
Qed.

(** X17.  Aggregation conserves the total: for a valid label and a
    non-empty series, every aggregated value is a number, and the values
    add up to the total of the returns that are numbers, which is what
    [cum_returns_final] gives on the whole series. *)
Theorem aggregate_returns_conserves_total :
  forall (returns : list (timestamp * float)) (convert_to : string),
    convert_to = "weekly" \/ convert_to = "monthly" \/ convert_to = "yearly" ->
    returns <> [] ->
    exists out vs,
      aggregate_returns returns convert_to = Ok out
      /\ map snd out = map fin vs
      /\ Qsum vs == Qsum (valid (map snd returns))
      /\ feq (cum_returns_final (map snd returns) 0) (fin (Qsum vs)).
Proof.
  intros returns c Hc Hne. rewrite (aggregate_returns_valid returns c Hc).
  destruct (groupby_fold_total (grouping_of c) returns [] (Forall_nil _))
    as [Hg Htot].
  fold (groupby (grouping_of c) returns) in Hg, Htot.
  destruct (cumulated_groups_total _ Hg) as [vs [E Hs]].
  eexists. exists vs. split; [reflexivity|]. split; [exact E|].
  assert (Hsum : Qsum vs == Qsum (valid (map snd returns))).
  { rewrite Hs, Htot, Qsum_filled_valid. unfold group_total, Qsum at 1. simpl. lra. }
  split; [exact Hsum|].
  assert (Hne' : map snd returns <> []) by (destruct returns; [congruence | discriminate]).
  pose proof (cum_returns_final_total (map snd returns) 0 Hne') as H.
  change (Qeq_bool 0 0) with true in H. cbv iota in H.
  eapply feq_trans; [exact H|]. cbn [feq]. symmetry. exact Hsum.
Qed.

Lemma aggregate_returns_conserves_total_witness :
  exists out vs,
    aggregate_returns
      [({| year := 2015; month := 8; isoweek := 32 |}, fin 0.01);
       ({| year := 2015; month := 7; isoweek := 29 |}, nan);
       ({| year := 2015; month := 8; isoweek := 33 |}, fin (-0.02))]
      "weekly" = Ok out
    /\ map snd out = map fin vs
    /\ Qsum vs == Qsum (valid (map snd
          [({| year := 2015; month := 8; isoweek := 32 |}, fin 0.01);
           ({| year := 2015; month := 7; isoweek := 29 |}, nan);
           ({| year := 2015; month := 8; isoweek := 33 |}, fin (-0.02))]))
    /\ feq (cum_returns_final (map snd
          [({| year := 2015; month := 8; isoweek := 32 |}, fin 0.01);
           ({| year := 2015; month := 7; isoweek := 29 |}, nan);
           ({| year := 2015; month := 8; isoweek := 33 |}, fin (-0.02))]) 0)
          (fin (Qsum vs)).
Proof.
  apply (aggregate_returns_conserves_total
           [({| year := 2015; month := 8; isoweek := 32 |}, fin 0.01);
            ({| year := 2015; month := 7; isoweek := 29 |}, nan);
            ({| year := 2015; month := 8; isoweek := 33 |}, fin (-0.02))]
           "weekly").
  - left. reflexivity.
  - discriminate.
Defined.

(** ** A series against itself *)

Lemma self_residual (A : list float) (b : Q) :
  valid (map2 fsub A (map (fun y => fmul (fin b) y) A))
  = map (fun q => q - b * q) (valid A).
Proof.
  induction A as [|[|q] t IH]; cbn [map map2 valid fsub fmul];
    [reflexivity | exact IH | f_equal; exact IH].
Qed.

Lemma Qsum_all_zero (l : list Q) : Forall (fun q => q == 0) l -> Qsum l == 0.
Proof.
  unfold Qsum. induction 1 as [|x t Hx _ IH]; simpl; [reflexivity|].
  rewrite Hx, IH. lra.
Qed.

Lemma adjust_returns_scalar (r : list float) (rf : Q) :
  exists A, _adjust_returns r (Scalar rf) = Ok A
            /\ List.length A = List.length r
            /\ List.length (valid A) = List.length (valid r).
Proof.
  cbn [_adjust_returns]. destruct (Qeq_bool rf 0).
  - exists r. repeat split.
  - eexists. split; [reflexivity|]. split; [apply length_map|].
    apply valid_shift_length.
Qed.

(** X18.  A series measured against itself has beta 1 and alpha 0: for
    every risk-free rate and every annualization factor, NaN entries
    allowed, as soon as the series holds two numbers whose variance is not
    below 1e-30. *)
Theorem alpha_beta_aligned_of_identical_series :
  forall (returns : list float) (risk_free : Q) (period : string)
         (annualization : option Q) (f : Q),
    (2 <= List.length (valid returns))%nat ->
    1e-30 <= Qabs (population_var (valid returns)) ->
    annualization_factor period annualization = Ok f ->
    exists alpha beta,
      alpha_beta_aligned returns returns risk_free period annualization
      = Ok (fin alpha, fin beta)
      /\ beta == 1 /\ alpha == 0.
Proof.
  intros r rf p a f Hn Hv Hf.
  destruct (beta_aligned_self r rf Hn Hv) as [b [Eb Hb]].
  destruct (adjust_returns_scalar r rf) as [A [EA [LA LV]]].
  unfold alpha_beta_aligned. rewrite Eb. cbn [bind]. unfold alpha_aligned.
  assert (G : (List.length r <? 2)%nat = false).
  { apply Nat.ltb_ge. pose proof (valid_length_le r). lia. }
  rewrite G, Hf. cbn [bind]. rewrite EA. cbn [bind].
  rewrite np_sub_same_length by (rewrite length_map; reflexivity).
  cbn [bind]. unfold nanmean. rewrite self_residual.
  destruct (valid A) as [|q0 v0] eqn:EV; [simpl in LV; lia|].
  rewrite <- EV. destruct (map (fun q => q - b * q) (valid A)) as [|z0 Z0] eqn:EZ.
  { rewrite EV in EZ. discriminate EZ. }
  rewrite <- EZ. cbn [fmul]. eexists. exists b.
  split; [reflexivity|]. split; [exact Hb|].
  assert (Hz : Qsum (map (fun q => q - b * q) (valid A)) == 0).
  { apply Qsum_all_zero. apply Forall_forall. intros x Hin.
    apply in_map_iff in Hin. destruct Hin as [q [E _]]. subst x.
    rewrite Hb. ring. }
  unfold Qmean. rewrite Hz. unfold Qdiv. ring.
Qed.

Lemma alpha_beta_aligned_of_identical_series_witness :
  exists alpha beta,
    alpha_beta_aligned [fin 0.1; nan; fin 0.3; fin (-0.2)]
      [fin 0.1; nan; fin 0.3; fin (-0.2)] 0.01 "weekly" None
    = Ok (fin alpha, fin beta)
    /\ beta == 1 /\ alpha == 0.
Proof.
  apply (alpha_beta_aligned_of_identical_series
           [fin 0.1; nan; fin 0.3; fin (-0.2)] 0.01 "weekly" None 52).
  - apply le_S, le_n.
  - apply Qle_bool_iff. vm_compute. reflexivity.
  - reflexivity.
Defined.

(** ** Downside risk: NaN entries are not periods *)

Lemma downside_squares_valid (l : list float) (c : Q) (shift : bool) :
  valid (map (fun x => fmul x x)
           (map (fun x => if fgt x (fin 0) then fin 0 else x)
              (if shift
               then map (fun x => fsub x (fin c))
                      (filter (fun x => negb (isnan x)) l)
               else filter (fun x => negb (isnan x)) l)))
  = valid (map (fun x => fmul x x)
             (map (fun x => if fgt x (fin 0) then fin 0 else x)
                (if shift then map (fun x => fsub x (fin c)) l else l))).
Proof.
  destruct shift; induction l as [|[|q] t IH]; cbn [filter isnan negb map];
    try reflexivity; try exact IH.
  - cbn [fsub fgt]. destruct (Qlt_bool 0 (q - c)); cbn [fmul valid];
      f_equal; exact IH.
  - cbn [fgt]. destruct (Qlt_bool 0 q); cbn [fmul valid]; f_equal; exact IH.
Qed.

(** X19.  [downside_risk] averages over the returns that are numbers: once
    the annualization factor resolves, dropping the NaN entries of a
    series does not change the result for a constant required return. *)
Theorem downside_risk_counts_numbers_only :
  forall (np_sqrt : Q -> float) (returns : list float) (required_return : Q)
         (period : string) (annualization : option Q) (f : Q),
    annualization_factor period annualization = Ok f ->
    downside_risk np_sqrt (filter (fun x => negb (isnan x)) returns)
      (Scalar required_return) period annualization
    = downside_risk np_sqrt returns (Scalar required_return) period annualization.
Proof.
  intros np_sqrt r c p a f Hf. unfold downside_risk. rewrite Hf.
  cbn [bind _adjust_returns].
  pose proof (downside_squares_valid r c) as Hv.
  destruct (Qeq_bool c 0); cbn [bind].
  - specialize (Hv false). cbv iota in Hv.
    assert (HN : nanmean (map (fun x => fmul x x)
                   (map (fun x => if fgt x (fin 0) then fin 0 else x)
                      (filter (fun x => negb (isnan x)) r)))
                 = nanmean (map (fun x => fmul x x)
                     (map (fun x => if fgt x (fin 0) then fin 0 else x) r)))
      by (unfold nanmean; rewrite Hv; reflexivity).
    destruct r as [|x t]; [reflexivity|].
    change (List.length (x :: t) <? 1)%nat with false. cbv iota.
    rewrite <- HN.
    destruct (filter (fun y => negb (isnan y)) (x :: t)) as [|y u]; reflexivity.
  - specialize (Hv true). cbv iota in Hv.
    assert (HN : nanmean (map (fun x => fmul x x)
                   (map (fun x => if fgt x (fin 0) then fin 0 else x)
                      (map (fun x => fsub x (fin c))
                         (filter (fun x => negb (isnan x)) r))))
                 = nanmean (map (fun x => fmul x x)
                     (map (fun x => if fgt x (fin 0) then fin 0 else x)
                        (map (fun x => fsub x (fin c)) r))))
      by (unfold nanmean; rewrite Hv; reflexivity).
    destruct r as [|x t]; [reflexivity|].
    change (List.length (x :: t) <? 1)%nat with false. cbv iota.
    rewrite <- HN.
    destruct (filter (fun y => negb (isnan y)) (x :: t)) as [|y u]; reflexivity.
Qed.

Lemma downside_risk_counts_numbers_only_witness :
  downside_risk sqrt_rational
    (filter (fun x => negb (isnan x)) [fin 0.03; nan; fin (-0.02)])
    (Scalar 0.01) "monthly" None
  = downside_risk sqrt_rational [fin 0.03; nan; fin (-0.02)]
      (Scalar 0.01) "monthly" None.
Proof.
  apply (downside_risk_counts_numbers_only sqrt_rational
           [fin 0.03; nan; fin (-0.02)] 0.01 "monthly" None 12).
  reflexivity.
Defined.

(** ** Drawdown: never deeper than the losses *)

Lemma losses_below_cons (q : Q) (t : list Q) :
  losses_below (q :: t)
  = if Qlt_bool q 0 then q + losses_below t else losses_below t.
Proof.
  unfold losses_below. cbn [filter]. destruct (Qlt_bool q 0); reflexivity.
Qed.

Lemma Qdiv_ge_self (g m : Q) : g <= 0 -> 1 <= m -> g <= g / m.
Proof.
  intros Hg Hm. apply Qle_shift_div_l; [lra|]. nra.
Qed.

Lemma drawdown_step_bound (s m q L : Q) :
  1 <= m -> s + 1 <= m -> L <= 0 -> L <= s + 1 - m ->
  let c := s + q + 1 in
  let m' := if Qle_bool m c then c else m in
  let L' := if Qlt_bool q 0 then L + q else L in
  1 <= m' /\ c <= m' /\ L' <= 0 /\ L' <= c - m' /\ L' <= (c - m') / m'.
Proof.
  intros Hm Hs HL Hgap. cbv zeta.
  assert (HL' : (if Qlt_bool q 0 then L + q else L) <= 0).
  { destruct (Qlt_bool q 0) eqn:E; [apply Qlt_bool_iff in E; lra | exact HL]. }
  destruct (Qle_bool m (s + q + 1)) eqn:E.
  - apply Qle_bool_iff in E.
    split; [lra|]. split; [lra|]. split; [exact HL'|].
    split; [lra|]. rewrite Qdiv_self_sub; lra.
  - assert (Hlt : s + q + 1 < m).
    { apply Qnot_le_lt. intros H. apply Qle_bool_iff in H. congruence. }
    assert (Hg : (if Qlt_bool q 0 then L + q else L) <= s + q + 1 - m).
    { destruct (Qlt_bool q 0) eqn:Eq; [lra|].
      apply Qlt_bool_false_iff in Eq. lra. }
    split; [exact Hm|]. split; [lra|]. split; [exact HL'|].
    split; [exact Hg|].
    eapply Qle_trans; [exact Hg|]. apply Qdiv_ge_self; lra.
Qed.

Lemma Qdrawdowns_bound (qs : list Q) (s m L : Q) :
  1 <= m -> s + 1 <= m -> L <= 0 -> L <= s + 1 - m ->
  Forall (fun d => L + losses_below qs <= d)
         (Qdrawdowns m (map (fun y => y + 1) (Qrun s qs))).
Proof.
  revert s m L. induction qs as [|q t IH]; intros s m L Hm Hs HL Hgap;
    [constructor|].
  cbn [Qrun map Qdrawdowns].
  destruct (drawdown_step_bound s m q L Hm Hs HL Hgap) as [H1 [H2 [H3 [H4 H5]]]].
  pose proof (losses_below_nonpos t) as Ht.
  rewrite losses_below_cons.
  constructor.
  - destruct (Qlt_bool q 0); lra.
  - specialize (IH (s + q) _ _ H1 H2 H3 H4).
    eapply Forall_impl; [|exact IH]. intros d Hd. cbv beta in Hd.
    destruct (Qlt_bool q 0); lra.
Qed.

Lemma Qlevels_bound (qs : list Q) :
  Forall (fun d => losses_below qs <= d) (Qdrawdowns 1 (Qlevels qs)).
Proof.
  destruct qs as [|q t]; [constructor|].
  cbn [Qlevels Qdrawdowns].
  assert (H01 : 0 + 1 <= 1) by lra. assert (H11 : 1 <= 1) by lra.
  assert (H00 : 0 <= 0) by lra. assert (Hg0 : 0 <= 0 + 1 - 1) by lra.
  destruct (drawdown_step_bound 0 1 q 0 H11 H01 H00 Hg0) as [H1 [H2 [H3 [H4 H5]]]].
  cbv zeta in *.
  assert (Ec : Qle_bool 1 (0 + q + 1) = Qle_bool 1 (q + 1)).
  { apply Qleb_comp; [reflexivity | ring]. }
  rewrite Ec in *.
  pose proof (losses_below_nonpos t) as Ht.
  rewrite losses_below_cons.
  set (m' := if Qle_bool 1 (q + 1) then q + 1 else 1) in *.
  assert (Hm'' : 1 <= m').
  { unfold m'. destruct (Qle_bool 1 (q + 1)) eqn:E; [|lra].
    apply Qle_bool_iff in E. exact E. }
  assert (Hc : q + 1 <= m').
  { unfold m' in *. destruct (Qle_bool 1 (q + 1)); lra. }
  assert (HL' : (if Qlt_bool q 0 then 0 + q else 0) <= q + 1 - m').
  { unfold m' in *. destruct (Qle_bool 1 (q + 1)), (Qlt_bool q 0); lra. }
  constructor.
  - eapply Qle_trans with (q + 1 - m').
    + destruct (Qlt_bool q 0); lra.
    + apply Qdiv_ge_self; lra.
  - pose proof (Qdrawdowns_bound t q m' _ Hm'' Hc H3 HL') as Hb.
    eapply Forall_impl; [|exact Hb]. intros d Hd. cbv beta in Hd.
    destruct (Qlt_bool q 0); lra.
Qed.

Lemma losses_filled_valid (r : list float) :
  losses_below (filled_values r) = losses_below (valid r).
Proof.
  unfold losses_below. f_equal.
  induction r as [|[|q] t IH]; cbn [filled_values map valid filter].
  - reflexivity.
  - change (Qlt_bool 0 0) with false. cbv iota. exact IH.
  - fold (filled_values t). destruct (Qlt_bool q 0); [f_equal|]; exact IH.
Qed.

(** X20.  The drawdown is never deeper than the losses: on a non-empty
    series [max_drawdown] is at least the sum of the negative returns. *)
Theorem max_drawdown_bounded_by_losses :
  forall returns : list float,
    returns <> [] ->
    exists d, max_drawdown returns = fin d /\ losses_below (valid returns) <= d.
Proof.
  intros r Hne. destruct r as [|x t]; [congruence|].
  rewrite max_drawdown_eval. eexists. split; [reflexivity|].
  rewrite <- losses_filled_valid.
  apply Qmin_fold_ge.
  - pose proof (losses_below_nonpos (filled_values (x :: t))) as H.
    eapply Qle_trans; [exact H|]. apply Qle_lteq. right. symmetry. field.
  - apply Qlevels_bound.
Qed.

Lemma max_drawdown_bounded_by_losses_witness :
  exists d,
    max_drawdown [fin 0.02; fin (-0.01); nan; fin (-0.03)] = fin d
    /\ losses_below (valid [fin 0.02; fin (-0.01); nan; fin (-0.03)]) <= d.
Proof.
  apply (max_drawdown_bounded_by_losses [fin 0.02; fin (-0.01); nan; fin (-0.03)]).
  discriminate.
Defined.
